(** * figma-range-sync: the synchronisation pipeline of [index.js]

    A shallow embedding of the poll cycle of [index.js] and the properties
    of its stages: identity resolution, editor extraction, payload
    construction, webhook dispatch and the bookkeeping of the time marker
    [lastSyncedTime].

    Conventions of the embedding.
    - A [moment] value is its instant, an integer number of milliseconds
      ([Z]).  [subtract(n, "minutes")] mutates its receiver and returns it;
      the only receivers in [index.js] are freshly created ([moment()]) and
      never read again under their old value, so a value semantics is exact.
    - A JS string is a Rocq [string] (a sequence of bytes, the UTF-8 text).
      [trim] and [toLowerCase] are modelled on the ASCII range; bytes above
      127 are left as they are.
    - [CONF.users], a plain object enumerated by [for ... in], is the list of
      its (key, value) pairs in enumeration order.
    - A [Map] is the list of its (key, value) pairs in insertion order;
      its keys here are strings, compared by equality.
    - A promise is modelled by its outcome, [Fulfilled v] or [Rejected e];
      the answers of the remote services are an explicit argument
      (a [network]) of the cycle.
    - [log] writes one line per call; a line is recorded as the call site
      and its interpolated data, without the wall-clock prefix.
      The console of the process receives the lines of a cycle's stages
      when the cycle settles; that is their place as long as cycles do not
      overlap, and with overlapping cycles only the order of the lines
      differs.
    - A rejected promise that nobody handles is dropped (the runtime only
      reports it).
    - The process is a transition system: an event is a call of
      [syncFigmaToRange] (at start-up or from the timer) or the settlement
      of the chain of a cycle in flight; cycles may overlap. *)

From Stdlib Require Import ZArith List String Ascii Bool Lia Sorted.
Import ListNotations.

Local Open Scope string_scope.
Local Open Scope Z_scope.

(** ** JavaScript string primitives used by the resolver *)

Module JsString.

(** White space and line terminators of the ASCII range, as removed by
    [String.prototype.trim]: TAB, LF, VT, FF, CR and SPACE. *)
Definition isWhiteSpace (c : ascii) : bool :=
  let n := nat_of_ascii c in
  ((9 <=? n) && (n <=? 13) || (n =? 32))%nat.

Fixpoint trimStart (s : string) : string :=
  match s with
  | EmptyString => EmptyString
  | String c r => if isWhiteSpace c then trimStart r else s
  end.

Fixpoint trimEnd (s : string) : string :=
  match s with
  | EmptyString => EmptyString
  | String c r =>
      match trimEnd r with
      | EmptyString => if isWhiteSpace c then EmptyString
                       else String c EmptyString
      | r' => String c r'
      end
  end.

Definition trim (s : string) : string := trimEnd (trimStart s).

Definition lowerChar (c : ascii) : ascii :=
  let n := nat_of_ascii c in
  if ((65 <=? n) && (n <=? 90))%nat then ascii_of_nat (n + 32) else c.

Fixpoint toLowerCase (s : string) : string :=
  match s with
  | EmptyString => EmptyString
  | String c r => String (lowerChar c) (toLowerCase r)
  end.

End JsString.

(** ** Configuration ([conf.yaml], loaded once at start-up) *)

Record Settings := {
  figmaTimeout : Z;
  figmaRequestsPerSecond : Z;
  initialImportHistoryMinutes : Z;
  pollingIntervalMinutes : Z
}.

Record Conf := {
  figma_accessToken : string;
  figma_teamID : string;
  range_webhookURL : string;
  settings : Settings;
  users : list (string * string)
}.

(** ** Identity resolver *)

(** The comparison key of [getEmailFromHandle]: [s.trim().toLowerCase()]. *)
Definition normalize (s : string) : string :=
  JsString.toLowerCase (JsString.trim s).

(** [getEmailFromHandle]: the loop over [CONF.users]; [None] is
    [undefined]. *)
Fixpoint lookupHandle (us : list (string * string)) (handle : string)
  : option string :=
  match us with
  | [] => None
  | (name, email) :: rest =>
      if String.eqb (normalize name) (normalize handle)
      then Some email
      else lookupHandle rest handle
  end.

Definition getEmailFromHandle (CONF : Conf) (handle : string) : option string :=
  lookupHandle (users CONF) handle.

(** ** The digest of [crypto.createHash("sha1").update(s).digest("hex")] *)

Module Sha1.

Definition mask32 (x : Z) : Z := Z.land x 0xFFFFFFFF.

Definition add32 (a b : Z) : Z := mask32 (a + b).

Definition rotl (n x : Z) : Z :=
  mask32 (Z.lor (Z.shiftl x n) (Z.shiftr x (32 - n))).

Definition not32 (x : Z) : Z := Z.lxor x 0xFFFFFFFF.

Fixpoint bytes (s : string) : list Z :=
  match s with
  | EmptyString => []
  | String c r => Z.of_nat (nat_of_ascii c) :: bytes r
  end.

(** The message length in bits, as eight big-endian bytes. *)
Definition be64 (n : Z) : list Z :=
  map (fun i => Z.land (Z.shiftr n (8 * i)) 255) [7; 6; 5; 4; 3; 2; 1; 0].

Definition pad (msg : list Z) : list Z :=
  let len := Z.of_nat (List.length msg) in
  (msg ++ [0x80] ++ repeat 0 (Z.to_nat ((55 - len) mod 64))
       ++ be64 (8 * len))%list.

Fixpoint words (bs : list Z) : list Z :=
  match bs with
  | a :: b :: c :: d :: r =>
      Z.lor (Z.shiftl a 24) (Z.lor (Z.shiftl b 16) (Z.lor (Z.shiftl c 8) d))
      :: words r
  | _ => []
  end.

(** Message schedule: [n] more words after the ones in [w]. *)
Fixpoint extend (n : nat) (w : list Z) : list Z :=
  match n with
  | O => w
  | S n' =>
      let i := List.length w in
      let at_ k := nth (i - k) w 0 in
      extend n' (w ++ [rotl 1 (Z.lxor (Z.lxor (at_ 3%nat) (at_ 8%nat))
                                      (Z.lxor (at_ 14%nat) (at_ 16%nat)))])%list
  end.

Definition state : Type := Z * Z * Z * Z * Z.

Definition round (i : nat) (wi : Z) (s : state) : state :=
  let '(a, b, c, d, e) := s in
  let '(f, k) :=
    if (i <? 20)%nat then
      (Z.lor (Z.land b c) (Z.land (not32 b) d), 0x5A827999)
    else if (i <? 40)%nat then
      (Z.lxor (Z.lxor b c) d, 0x6ED9EBA1)
    else if (i <? 60)%nat then
      (Z.lor (Z.lor (Z.land b c) (Z.land b d)) (Z.land c d), 0x8F1BBCDC)
    else
      (Z.lxor (Z.lxor b c) d, 0xCA62C1D6) in
  let temp := add32 (add32 (add32 (add32 (rotl 5 a) f) e) k) wi in
  (temp, a, rotl 30 b, c, d).

Fixpoint rounds (i : nat) (w : list Z) (s : state) : state :=
  match w with
  | [] => s
  | wi :: rest => rounds (S i) rest (round i wi s)
  end.

Definition compress (h : state) (block : list Z) : state :=
  let '(h0, h1, h2, h3, h4) := h in
  let '(a, b, c, d, e) := rounds 0 (extend 64 block) h in
  (add32 h0 a, add32 h1 b, add32 h2 c, add32 h3 d, add32 h4 e).

(** [n] blocks of sixteen words each. *)
Fixpoint blocks (n : nat) (ws : list Z) (h : state) : state :=
  match n with
  | O => h
  | S n' => blocks n' (skipn 16 ws) (compress h (firstn 16 ws))
  end.

Definition init : state :=
  (0x67452301, 0xEFCDAB89, 0x98BADCFE, 0x10325476, 0xC3D2E1F0).

Definition digest (msg : list Z) : state :=
  let ws := words (pad msg) in
  blocks (List.length ws / 16)%nat ws init.

Definition hexDigit (n : Z) : ascii :=
  if n <? 10 then ascii_of_nat (Z.to_nat (48 + n))
  else ascii_of_nat (Z.to_nat (87 + n)).

Definition hexWord (x : Z) : string :=
  fold_right (fun i acc => String (hexDigit (Z.land (Z.shiftr x (4 * i)) 15)) acc)
             EmptyString [7; 6; 5; 4; 3; 2; 1; 0].

Definition hex (s : string) : string :=
  let '(a, b, c, d, e) := digest (bytes s) in
  hexWord a ++ hexWord b ++ hexWord c ++ hexWord d ++ hexWord e.

End Sha1.

Arguments Sha1.hex : simpl never.

(** ** Data model: the objects of the Figma API, entries and payloads *)

Record Project := { project_id : string; project_name : string }.

Module File.
Record t := mk { key : string; name : string; last_modified : Z }.
End File.

Record User := { id : string; handle : string }.

Record Version := { version_id : string; created_at : Z; user : User }.

Module Editor.
Record t := mk { name : string; email : string }.
End Editor.

(** What one request of [getFigmaVersionForFiles] resolves to:
    [{file, versions}]. *)
Record VersionedFile := { vf_file : File.t; vf_versions : list Version }.

(** An entry after [addEditorsSince]: [{file, versions, editors}].  The
    stage assigns [entry.editors] on the object it was given; every entry
    is an object of its own, created by [getFigmaVersionForFiles], so the
    assignment is a record that agrees with the old one on the other
    fields. *)
Record Entry := {
  file : File.t;
  versions : list Version;
  editors : list Editor.t
}.

Module Attachment.
Record t := mk {
  source_id : string;
  provider : string;
  provider_name : string;
  html_url : string;
  name : string;
  type : string;
  subtype : string
}.
End Attachment.

Record Payload := {
  email_hash : string;
  is_future : bool;
  reason : string;
  dedupe_strategy : string;
  attachment : Attachment.t
}.

(** The response of the webhook to one POST. *)
Record Response := { status : Z }.

(** A rejection reason, as far as the [catch] handler inspects it:
    [err.code] and [err.message] (the empty message is the falsy one). *)
Record Error := { code : option string; message : string }.

(** ** Promises, by their outcome *)

Inductive promise (A : Type) : Type :=
| Fulfilled (value : A)
| Rejected (err : Error).
Arguments Fulfilled {A} value.
Arguments Rejected {A} err.

(** [p.then(f)] for a synchronous [f]. *)
Definition then_ {A B : Type} (p : promise A) (f : A -> B) : promise B :=
  match p with
  | Fulfilled a => Fulfilled (f a)
  | Rejected e => Rejected e
  end.

(** [Promise.all]: the list of values when every promise is fulfilled, a
    rejection otherwise.  Of several rejections the one that settles first
    wins; the order in which requests settle is not part of the model, the
    first in list order is taken. *)
Fixpoint Promise_all {A : Type} (ps : list (promise A)) : promise (list A) :=
  match ps with
  | [] => Fulfilled []
  | Rejected e :: _ => Rejected e
  | Fulfilled a :: rest =>
      match Promise_all rest with
      | Fulfilled l => Fulfilled (a :: l)
      | Rejected e => Rejected e
      end
  end.

(** The answers of the remote services to the requests of one cycle.  A
    request is identified by its position in its batch and by what it asks
    for.  [post] is [axios.post(CONF.range.webhookURL, payload)]: axios
    fulfils the promise with the response when it accepts the status (by
    default any 2xx) and rejects it otherwise, as it does on a network
    error; the model puts no condition on the status of a fulfilled
    response. *)
Record Network := {
  get_projects : string -> promise (list Project);
  get_files : nat -> string -> promise (list File.t);
  get_versions : nat -> string -> promise (list Version);
  post : nat -> string -> Payload -> promise Response
}.

(** ** The log sink *)

Inductive LogLine : Type :=
| LogStarted
| LogSyncing
| LogFindingSince (marker : Z)
| LogSuccess
| LogNetworkError
| LogErrorMessage (msg : string)
| LogErrorData (err : Error)
| LogUnsuccessful
| LogFetchedProjects (n : nat)
| LogFetchedFiles (n : nat)
| LogFilesChanged (n : nat)
| LogNoFilesChanged
| LogFetchedVersions (n : nat)
| LogEntry (fileName : string)
| LogNotFound (handle : string)
| LogResolved (handle email : string)
| LogSent (n : nat).

(** ** A promise chain that logs: the log written so far is threaded
    through, and a rejection skips the remaining [then] handlers. *)

Definition Chain (A : Type) : Type := list LogLine -> promise A * list LogLine.

Definition ret {A : Type} (a : A) : Chain A := fun l => (Fulfilled a, l).

Definition bind {A B : Type} (m : Chain A) (k : A -> Chain B) : Chain B :=
  fun l =>
    match m l with
    | (Fulfilled a, l') => k a l'
    | (Rejected e, l') => (Rejected e, l')
    end.

Definition await {A : Type} (p : promise A) : Chain A := fun l => (p, l).

Definition log (x : LogLine) : Chain unit :=
  fun l => (Fulfilled tt, (l ++ [x])%list).

Notation "x <- m ;; k" := (bind m (fun x => k))
  (at level 61, m at next level, right associativity).
Notation "m ;;; k" := (bind m (fun _ => k))
  (at level 61, right associativity).

Fixpoint mapM {A B : Type} (f : A -> Chain B) (l : list A) : Chain (list B) :=
  match l with
  | [] => ret []
  | a :: rest => b <- f a ;; bs <- mapM f rest ;; ret (b :: bs)
  end.

(** [array.map((x, i) => f i x)], counting from [i]. *)
Fixpoint mapi {A B : Type} (f : nat -> A -> B) (i : nat) (l : list A) : list B :=
  match l with
  | [] => []
  | a :: rest => f i a :: mapi f (S i) rest
  end.

(** [array.forEach(callback)]: the callback runs on every element and
    whatever it returns is dropped. *)
Definition Array_forEach {A B : Type} (l : list A) (callback : A -> B) : unit :=
  fold_left (fun _ a => let _ := callback a in tt) l tt.

(** [moment(a).isAfter(b)] *)
Definition isAfter (a b : Z) : bool := b <? a.

(** [m.subtract(n, "minutes")] *)
Definition subtractMinutes (m n : Z) : Z := m - n * 60000.

(** ** The stages of a poll cycle *)

Section Stages.

Variable CONF : Conf.
Variable net : Network.

(** [getFigmaProjectsForTeam] *)
Definition getFigmaProjectsForTeam (teamId : string) : Chain (list Project) :=
  projects <- await (get_projects net teamId) ;;
  log (LogFetchedProjects (List.length projects)) ;;;
  ret projects.

(** [getFigmaFilesForProjects] *)
Definition getFigmaFilesForProjects (figmaProjects : list Project)
  : Chain (list File.t) :=
  let fileRequests :=
    mapi (fun i project => get_files net i (project_id project)) 0 figmaProjects in
  fileRequestResponses <- await (Promise_all fileRequests) ;;
  let files := List.concat fileRequestResponses in
  log (LogFetchedFiles (List.length files)) ;;;
  ret files.

(** [filterFigmaFilesToEditedAfter] *)
Definition filterFigmaFilesToEditedAfter (momentMarker : Z)
                                         (figmaFiles : list File.t)
  : Chain (list File.t) :=
  let recentFiles :=
    filter (fun f => isAfter (File.last_modified f) momentMarker) figmaFiles in
  (if (0 <? List.length recentFiles)%nat
   then log (LogFilesChanged (List.length recentFiles))
   else log LogNoFilesChanged) ;;;
  ret recentFiles.

(** [getFigmaVersionForFiles] *)
Definition getFigmaVersionForFiles (files : list File.t)
  : Chain (list VersionedFile) :=
  let versionRequests :=
    mapi (fun i f =>
            then_ (get_versions net i (File.key f))
                  (fun vs => {| vf_file := f; vf_versions := vs |}))
         0 files in
  entries <- await (Promise_all versionRequests) ;;
  log (LogFetchedVersions (List.length entries)) ;;;
  ret entries.

(** [Map.prototype.set]: an existing key keeps its place and takes the
    new value, a new key goes last. *)
Fixpoint Map_set (m : list (string * string)) (k v : string)
  : list (string * string) :=
  match m with
  | [] => [(k, v)]
  | (k', v') :: rest =>
      if String.eqb k' k then (k', v) :: rest
      else (k', v') :: Map_set rest k v
  end.

(** The loop [entry.versions.forEach((version, index) => ...)] of
    [addEditorsSince], from position [index] on. *)
Fixpoint collectEditors (momentMarker : Z) (index : nat)
                        (vs : list Version)
                        (editorsMap : list (string * string))
  : list (string * string) :=
  match vs with
  | [] => editorsMap
  | version :: rest =>
      collectEditors momentMarker (S index) rest
        (if (index =? 0)%nat || isAfter (created_at version) momentMarker
         then Map_set editorsMap (id (user version)) (handle (user version))
         else editorsMap)
  end.

(** The [editorsMap] that [addEditorsSince] builds for one entry. *)
Definition editorsMapOf (momentMarker : Z) (vs : list Version)
  : list (string * string) :=
  collectEditors momentMarker 0 vs [].

(** The loop [editorsMap.forEach((handle, id) => ...)] of
    [addEditorsSince]; [acc] is [entry.editors] so far. *)
Fixpoint resolveEditors (editorsMap : list (string * string))
                        (acc : list Editor.t) : Chain (list Editor.t) :=
  match editorsMap with
  | [] => ret acc
  | (_, h) :: rest =>
      match getEmailFromHandle CONF h with
      | None =>
          log (LogNotFound h) ;;;
          resolveEditors rest acc
      | Some editorEmail =>
          log (LogResolved h editorEmail) ;;;
          resolveEditors rest
            (acc ++ [{| Editor.name := h; Editor.email := editorEmail |}])%list
      end
  end.

(** The body of [entries.forEach(entry => ...)] in [addEditorsSince]. *)
Definition addEditors (momentMarker : Z) (entry : VersionedFile) : Chain Entry :=
  log (LogEntry (File.name (vf_file entry))) ;;;
  eds <- resolveEditors (editorsMapOf momentMarker (vf_versions entry)) [] ;;
  ret {| file := vf_file entry;
         versions := vf_versions entry;
         editors := eds |}.

(** [addEditorsSince] *)
Definition addEditorsSince (momentMarker : Z) (entries : list VersionedFile)
  : Chain (list Entry) :=
  mapM (addEditors momentMarker) entries.

(** The payload pushed for one editor of one entry. *)
Definition rangePayload (entry : Entry) (editor : Editor.t) : Payload :=
  {| email_hash := Sha1.hex (Editor.email editor);
     is_future := false;
     reason := "EDITED";
     dedupe_strategy := "UPSERT_PENDING";
     attachment :=
       {| Attachment.source_id := File.key (file entry);
          Attachment.provider := "figma";
          Attachment.provider_name := "Figma";
          Attachment.html_url :=
            ("https://www.figma.com/file/" ++ File.key (file entry))%string;
          Attachment.name := File.name (file entry);
          Attachment.type := "DOCUMENT";
          Attachment.subtype := "FIGMA_DOCUMENT" |} |}.

Definition rangePayloads (entries : list Entry) : list Payload :=
  flat_map (fun entry => map (rangePayload entry) (editors entry)) entries.

(** [createRangePayloads] *)
Definition createRangePayloads (entries : list Entry) : Chain (list Payload) :=
  ret (rangePayloads entries).

(** The callback of [responses.forEach] in [sendRangePayloads]: for a
    status other than 200 it returns a rejected promise
    ([new Error(resp)]), otherwise nothing. *)
Definition checkStatus (resp : Response) : option (promise unit) :=
  if negb (status resp =? 200)
  then Some (Rejected {| code := None; message := "[object Object]" |})
  else None.

(** [sendRangePayloads].  The handler after [Promise.all] calls
    [responses.forEach] and then returns [Promise.resolve()]. *)
Definition sendRangePayloads (payloads : list Payload) : Chain unit :=
  let rangeRequests :=
    mapi (fun i payload => post net i (range_webhookURL CONF) payload)
         0 payloads in
  responses <- await (Promise_all rangeRequests) ;;
  let _ := Array_forEach responses checkStatus in
  log (LogSent (List.length rangeRequests)) ;;;
  ret tt.

(** The chain built by [syncFigmaToRange], up to [sendRangePayloads];
    [marker] is the value of [lastSyncedTime] when the chain is built. *)
Definition syncChain (marker : Z) : Chain unit :=
  projects <- getFigmaProjectsForTeam (figma_teamID CONF) ;;
  files <- getFigmaFilesForProjects projects ;;
  recent <- filterFigmaFilesToEditedAfter marker files ;;
  withVersions <- getFigmaVersionForFiles recent ;;
  entries <- addEditorsSince marker withVersions ;;
  payloads <- createRangePayloads entries ;;
  sendRangePayloads payloads.

(** [err.code === c] *)
Definition codeIs (err : Error) (c : string) : bool :=
  match code err with
  | Some c' => String.eqb c' c
  | None => false
  end.

(** The [catch] handler of [syncFigmaToRange]. *)
Definition catchHandler (err : Error) : list LogLine :=
  [ if codeIs err "ECONNRESET" || codeIs err "ECONNABORTED"
    then LogNetworkError
    else if negb (String.eqb (message err) "")
         then LogErrorMessage (message err)
         else LogErrorData err;
    LogUnsuccessful ].

End Stages.

(** ** The process: the marker, the cycles in flight and the timer *)

(** A cycle in flight: what the call of [syncFigmaToRange] fixed when it
    built the chain. *)
Record Cycle := {
  syncStartTime : Z;      (* [var syncStartTime = moment()] *)
  chainMarker : Z;        (* [lastSyncedTime] as passed to the stages *)
  chainNet : Network      (* what the services answer to this cycle *)
}.

Record Process := {
  clock : Z;                   (* wall-clock time of the last event *)
  lastSyncedTime : Z;          (* the marker *)
  inflight : list Cycle;
  console : list LogLine
}.

Inductive Event : Type :=
| Trigger (now : Z) (net : Network)   (* [syncFigmaToRange()] is called *)
| Settle (now : Z) (k : nat).         (* the chain of the [k]-th cycle in
                                         flight reaches its last handler *)

Definition eventTime (ev : Event) : Z :=
  match ev with
  | Trigger now _ => now
  | Settle now _ => now
  end.

Fixpoint removeNth {A : Type} (k : nat) (l : list A) : list A :=
  match l, k with
  | [], _ => []
  | _ :: rest, O => rest
  | a :: rest, S k' => a :: removeNth k' rest
  end.

Section Orchestrator.

Variable CONF : Conf.

(** The state after the top-level statements before the first call:
    the marker is initialised and the start-up line is logged. *)
Definition boot (now : Z) : Process :=
  {| clock := now;
     lastSyncedTime :=
       subtractMinutes now (initialImportHistoryMinutes (settings CONF));
     inflight := [];
     console := [LogStarted] |}.

(** The synchronous part of [syncFigmaToRange]: two log lines, the start
    time, and the chain built over the current marker. *)
Definition syncFigmaToRange (now : Z) (net : Network) (p : Process) : Process :=
  {| clock := now;
     lastSyncedTime := lastSyncedTime p;
     inflight :=
       (inflight p ++ [{| syncStartTime := now;
                          chainMarker := lastSyncedTime p;
                          chainNet := net |}])%list;
     console :=
       (console p ++ [LogSyncing; LogFindingSince (lastSyncedTime p)])%list |}.

(** The end of the chain of cycle [c]: the [then] handler that advances
    the marker, or the [catch] handler. *)
Definition settle (now : Z) (c : Cycle) (rest : list Cycle) (p : Process)
  : Process :=
  match syncChain CONF (chainNet c) (chainMarker c) [] with
  | (Fulfilled _, out) =>
      {| clock := now;
         lastSyncedTime := subtractMinutes (syncStartTime c) 1;
         inflight := rest;
         console := (console p ++ out ++ [LogSuccess])%list |}
  | (Rejected err, out) =>
      {| clock := now;
         lastSyncedTime := lastSyncedTime p;
         inflight := rest;
         console := (console p ++ out ++ catchHandler err)%list |}
  end.

Definition step (p : Process) (ev : Event) : Process :=
  match ev with
  | Trigger now net => syncFigmaToRange now net p
  | Settle now k =>
      match nth_error (inflight p) k with
      | Some c => settle now c (removeNth k (inflight p)) p
      | None => p
      end
  end.

Definition run (p : Process) (evs : list Event) : Process :=
  fold_left step evs p.

(** The marker after each event of a run. *)
Fixpoint markers (p : Process) (evs : list Event) : list Z :=
  match evs with
  | [] => []
  | ev :: rest => lastSyncedTime (step p ev) :: markers (step p ev) rest
  end.

(** Wall-clock time never goes back. *)
Fixpoint clockMonotone (p : Process) (evs : list Event) : Prop :=
  match evs with
  | [] => True
  | ev :: rest => clock p <= eventTime ev /\ clockMonotone (step p ev) rest
  end.

(** No cycle is started while another one is in flight. *)
Fixpoint serial (p : Process) (evs : list Event) : Prop :=
  match evs with
  | [] => True
  | ev :: rest =>
      match ev with
      | Trigger _ _ => inflight p = []
      | Settle _ _ => True
      end /\ serial (step p ev) rest
  end.

End Orchestrator.

(** ** Vocabulary of the statements *)

(** [Map.prototype.get] and the keys of a map in iteration order. *)
Fixpoint Map_get (m : list (string * string)) (k : string) : option string :=
  match m with
  | [] => None
  | (k', v) :: rest => if String.eqb k' k then Some v else Map_get rest k
  end.

Definition keys (m : list (string * string)) : list string := map fst m.

(** The versions whose author the extractor records: the one at index 0
    and those created strictly after the marker. *)
Fixpoint selectedFrom (momentMarker : Z) (index : nat) (vs : list Version)
  : list Version :=
  match vs with
  | [] => []
  | v :: rest =>
      if (index =? 0)%nat || isAfter (created_at v) momentMarker
      then v :: selectedFrom momentMarker (S index) rest
      else selectedFrom momentMarker (S index) rest
  end.

Definition selected (momentMarker : Z) (vs : list Version) : list Version :=
  selectedFrom momentMarker 0 vs.

(** What the extractor does with a selected version. *)
Definition recordAuthor (m : list (string * string)) (v : Version)
  : list (string * string) :=
  Map_set m (id (user v)) (handle (user v)).

Definition authorId (v : Version) : string := id (user v).

Definition mem (x : string) (l : list string) : bool :=
  existsb (String.eqb x) l.

(** Discovery order: every string of [l] not yet in [seen], at its first
    occurrence. *)
Fixpoint discover (seen l : list string) : list string :=
  match l with
  | [] => []
  | x :: rest =>
      if mem x seen then discover seen rest
      else x :: discover (x :: seen) rest
  end.

(** The handle of the last version of [vs] whose author has id [i]. *)
Definition lastHandle (i : string) (vs : list Version) : option string :=
  fold_left (fun o v => if String.eqb (id (user v)) i
                        then Some (handle (user v)) else o)
            vs None.

(** The editors that resolve, in map order, and the lines written while
    resolving. *)
Fixpoint resolved (CONF : Conf) (m : list (string * string)) : list Editor.t :=
  match m with
  | [] => []
  | (_, h) :: rest =>
      match getEmailFromHandle CONF h with
      | None => resolved CONF rest
      | Some e => {| Editor.name := h; Editor.email := e |} :: resolved CONF rest
      end
  end.

Definition resolveLine (CONF : Conf) (kv : string * string) : LogLine :=
  match getEmailFromHandle CONF (snd kv) with
  | None => LogNotFound (snd kv)
  | Some e => LogResolved (snd kv) e
  end.

Definition entryOf (CONF : Conf) (momentMarker : Z) (vf : VersionedFile) : Entry :=
  {| file := vf_file vf;
     versions := vf_versions vf;
     editors := resolved CONF (editorsMapOf momentMarker (vf_versions vf)) |}.

Definition entryLog (CONF : Conf) (momentMarker : Z) (vf : VersionedFile)
  : list LogLine :=
  LogEntry (File.name (vf_file vf))
  :: map (resolveLine CONF) (editorsMapOf momentMarker (vf_versions vf)).

(** The part of the chain that reads from the design service: what
    [addEditorsSince] is handed. *)
Definition fetched (CONF : Conf) (net : Network) (marker : Z)
  : Chain (list VersionedFile) :=
  projects <- getFigmaProjectsForTeam net (figma_teamID CONF) ;;
  files <- getFigmaFilesForProjects net projects ;;
  recent <- filterFigmaFilesToEditedAfter marker files ;;
  getFigmaVersionForFiles net recent.

(** Every delivery of a batch gets a response (of whatever status). *)
Definition delivered (CONF : Conf) (net : Network) (payloads : list Payload)
  : Prop :=
  forall i p, nth_error payloads i = Some p ->
    exists resp, post net i (range_webhookURL CONF) p = Fulfilled resp.

(** The stages at which a cycle can fail, and what it means for the chain
    over [net] and [marker] to fail at one of them with reason [e].  The
    payloads are built by a total function of the entries, so there is no
    way to fail at [PayloadBuild]. *)
Inductive Stage : Type :=
| ProjectListing | FileListing | VersionFetch | PayloadBuild | Dispatch.

Inductive failsAt (CONF : Conf) (net : Network) (marker : Z)
  : Stage -> Error -> Prop :=
| fails_projects e l :
    getFigmaProjectsForTeam net (figma_teamID CONF) [] = (Rejected e, l) ->
    failsAt CONF net marker ProjectListing e
| fails_files ps l1 e l :
    getFigmaProjectsForTeam net (figma_teamID CONF) [] = (Fulfilled ps, l1) ->
    getFigmaFilesForProjects net ps l1 = (Rejected e, l) ->
    failsAt CONF net marker FileListing e
| fails_versions ps l1 fs l2 rs l3 e l :
    getFigmaProjectsForTeam net (figma_teamID CONF) [] = (Fulfilled ps, l1) ->
    getFigmaFilesForProjects net ps l1 = (Fulfilled fs, l2) ->
    filterFigmaFilesToEditedAfter marker fs l2 = (Fulfilled rs, l3) ->
    getFigmaVersionForFiles net rs l3 = (Rejected e, l) ->
    failsAt CONF net marker VersionFetch e
| fails_dispatch vfs l4 entries l5 payloads l6 e l :
    fetched CONF net marker [] = (Fulfilled vfs, l4) ->
    addEditorsSince CONF marker vfs l4 = (Fulfilled entries, l5) ->
    createRangePayloads entries l5 = (Fulfilled payloads, l6) ->
    sendRangePayloads CONF net payloads l6 = (Rejected e, l) ->
    failsAt CONF net marker Dispatch e.

(** The marker at start-up followed by the marker after each event. *)
Definition markerHistory (CONF : Conf) (now0 : Z) (evs : list Event) : list Z :=
  lastSyncedTime (boot CONF now0) :: markers CONF (boot CONF now0) evs.

(** What holds of a process whose cycles never overlap: the marker is at
    least a minute behind the clock, and at most one cycle is in flight,
    started at least a minute after the marker. *)
Definition SerialInv (p : Process) : Prop :=
  lastSyncedTime p <= clock p - 60000
  /\ (inflight p = []
      \/ exists c, inflight p = [c]
                   /\ lastSyncedTime p <= syncStartTime c - 60000
                   /\ syncStartTime c <= clock p).

(** ** Sample data for the examples *)

Definition sampleSettings : Settings :=
  {| figmaTimeout := 10000;
     figmaRequestsPerSecond := 5;
     initialImportHistoryMinutes := 1440;
     pollingIntervalMinutes := 10 |}.

Definition sampleConf : Conf :=
  {| figma_accessToken := "token";
     figma_teamID := "team";
     range_webhookURL := "https://hooks.example/range";
     settings := sampleSettings;
     users := [("Bob", "bob@example.com"); ("ALICE ", "Alice@Example.com")] |}.

Definition sampleVersions : list Version :=
  [ {| version_id := "30"; created_at := 900;
       user := {| id := "A"; handle := "Alice" |} |};
    {| version_id := "20"; created_at := 1500;
       user := {| id := "B"; handle := "Bob" |} |};
    {| version_id := "10"; created_at := 800;
       user := {| id := "A"; handle := "alice (old)" |} |} ].

Definition sampleProject : Project :=
  {| project_id := "p1"; project_name := "Web" |}.

Definition sampleFile : File.t :=
  {| File.key := "k1"; File.name := "Landing page"; File.last_modified := 2000 |}.

(** Every read succeeds and the webhook answers every POST with status
    [st]. *)
Definition respondingNet (st : Z) : Network :=
  {| get_projects := fun _ => Fulfilled [sampleProject];
     get_files := fun _ _ => Fulfilled [sampleFile];
     get_versions := fun _ _ => Fulfilled sampleVersions;
     post := fun _ _ _ => Fulfilled {| status := st |} |}.

Definition resetError : Error :=
  {| code := Some "ECONNRESET"; message := "socket hang up" |}.

(** The file listing is cut off by a connection reset. *)
Definition resetNet : Network :=
  {| get_projects := fun _ => Fulfilled [sampleProject];
     get_files := fun _ _ => Rejected resetError;
     get_versions := fun _ _ => Fulfilled sampleVersions;
     post := fun _ _ _ => Fulfilled {| status := 200 |} |}.

(** A process at rest with marker [m]. *)
Definition idle (m : Z) : Process :=
  {| clock := m; lastSyncedTime := m; inflight := []; console := [] |}.

(** A configuration with no initial history window. *)
Definition zeroHistoryConf : Conf :=
  {| figma_accessToken := "token";
     figma_teamID := "team";
     range_webhookURL := "https://hooks.example/range";
     settings :=
       {| figmaTimeout := 10000;
          figmaRequestsPerSecond := 5;
          initialImportHistoryMinutes := 0;
          pollingIntervalMinutes := 10 |};
     users := [("Bob", "bob@example.com")] |}.

(** The first cycle of a process, settled half a second after it
    started. *)
Definition firstCycle (now : Z) (net : Network) : list Event :=
  [Trigger now net; Settle (now + 500) 0].

(** A table that knows Bob only. *)
Definition bobOnlyConf : Conf :=
  {| figma_accessToken := "token";
     figma_teamID := "team";
     range_webhookURL := "https://hooks.example/range";
     settings := sampleSettings;
     users := [("Bob", "bob@example.com")] |}.


Definition sampleVersionedFile : VersionedFile :=
  {| vf_file := sampleFile; vf_versions := sampleVersions |}.

(** ** Vocabulary of the further properties *)

(** The test of [filterFigmaFilesToEditedAfter]. *)
Definition newer (momentMarker : Z) (f : File.t) : bool :=
  isAfter (File.last_modified f) momentMarker.

(** The lines that the stages of the chain write. *)
Definition stageLine (x : LogLine) : bool :=
  match x with
  | LogFetchedProjects _ | LogFetchedFiles _ | LogFilesChanged _
  | LogNoFilesChanged | LogFetchedVersions _ | LogEntry _
  | LogNotFound _ | LogResolved _ _ | LogSent _ => true
  | _ => false
  end.

(** The two lines that close a cycle. *)
Definition isVerdict (x : LogLine) : bool :=
  match x with
  | LogSuccess | LogUnsuccessful => true
  | _ => false
  end.

Definition isSyncing (x : LogLine) : bool :=
  match x with
  | LogSyncing => true
  | _ => false
  end.

Definition isResolved (x : LogLine) : bool :=
  match x with
  | LogResolved _ _ => true
  | _ => false
  end.

Definition isNotFound (x : LogLine) : bool :=
  match x with
  | LogNotFound _ => true
  | _ => false
  end.

(** The times at which [syncFigmaToRange] is called in a run. *)
Fixpoint triggerTimes (evs : list Event) : list Z :=
  match evs with
  | [] => []
  | Trigger now _ :: rest => now :: triggerTimes rest
  | Settle _ _ :: rest => triggerTimes rest
  end.

(** Cycles settle in the order in which they were started. *)
Fixpoint fifo (evs : list Event) : Prop :=
  match evs with
  | [] => True
  | Trigger _ _ :: rest => fifo rest
  | Settle _ k :: rest => k = 0%nat /\ fifo rest
  end.

(** What holds of a process whose cycles settle in order: the cycles in
    flight are listed by start time, none started after the clock, and the
    marker is a minute or more behind each of them. *)
Definition FifoInv (p : Process) : Prop :=
  StronglySorted Z.le (map syncStartTime (inflight p))
  /\ Forall (fun c => syncStartTime c <= clock p
                      /\ lastSyncedTime p <= syncStartTime c - 60000)
            (inflight p).

(** The design service answers the listings of projects and files; every
    request for versions and every POST is cut off. *)
Definition deafNet : Network :=
  {| get_projects := fun _ => Fulfilled [sampleProject];
     get_files := fun _ _ => Fulfilled [sampleFile];
     get_versions := fun _ _ => Rejected resetError;
     post := fun _ _ _ => Rejected resetError |}.

(** A webhook that cuts off the second POST of a batch. *)
Definition secondPostFails : Network :=
  {| get_projects := fun _ => Fulfilled [sampleProject];
     get_files := fun _ _ => Fulfilled [sampleFile];
     get_versions := fun _ _ => Fulfilled sampleVersions;
     post := fun i _ _ => if (i =? 1)%nat then Rejected resetError
                          else Fulfilled {| status := 200 |} |}.

(** The marker is at least [d] milliseconds behind the clock, and no cycle
    in flight started after the clock. *)
Definition BehindInv (d : Z) (p : Process) : Prop :=
  lastSyncedTime p <= clock p - d
  /\ Forall (fun c => syncStartTime c <= clock p) (inflight p).

(** The values the marker can have taken when the calls of
    [syncFigmaToRange] so far were at the times [seen]. *)
Definition markerValues (m0 : Z) (seen : list Z) : list Z :=
  m0 :: map (fun T => T - 60000) seen.

(** A chain only adds lines to the log it is given, and only lines of the
    stages. *)
Definition logsStageLines {A : Type} (m : Chain A) : Prop :=
  forall l, exists added,
    snd (m l) = (l ++ added)%list
    /\ Forall (fun x => stageLine x = true) added.

(** Two cycles in flight at once, settled in the order they started. *)
Definition overlappingFifoRun : list Event :=
  [Trigger 90000000 (respondingNet 200); Trigger 90600000 resetNet;
   Settle 90601000 0; Trigger 91200000 (respondingNet 200);
   Settle 91201000 0; Settle 91202000 0].

(** ** Vocabulary for the range of the digest *)







(** * Properties *)

(** ** JavaScript primitives: test vectors *)

Example sha1_empty : Sha1.hex "" = "da39a3ee5e6b4b0d3255bfef95601890afd80709".
Proof. vm_compute. reflexivity. Qed.
Example sha1_abc : Sha1.hex "abc" = "a9993e364706816aba3e25717850c26c9cd0d89d".
Proof. vm_compute. reflexivity. Qed.
Example sha1_two_blocks :
  Sha1.hex "abcdbcdecdefdefgefghfghighijhijkijkljklmklmnlmnomnopnopq"
  = "84983e441c3bd26ebaae4aa1f95129e5e54670f1".
Proof. vm_compute. reflexivity. Qed.

Example trim_Alice : JsString.trim " Alice " = "Alice".
Proof. reflexivity. Qed.

Example normalize_Alice : normalize "   Alice Smith " = "alice smith".
Proof. reflexivity. Qed.

(** ** Identity resolver *)

Lemma lookupHandle_normalize (us : list (string * string)) (h1 h2 : string) :
  normalize h1 = normalize h2 -> lookupHandle us h1 = lookupHandle us h2.
Proof.
  intros E. induction us as [|[name email] rest IH]; simpl.
  - reflexivity.
  - rewrite E, IH. reflexivity.
Qed.

(** C7.  Two handles that are equal after trimming and lowercasing get the
    same answer from the resolver, whatever the table; in particular
    [" Alice "] and ["alice"] resolve identically. *)
Theorem C7_resolver_insensitive (CONF : Conf) (h1 h2 : string) :
  normalize h1 = normalize h2 ->
  getEmailFromHandle CONF h1 = getEmailFromHandle CONF h2
  /\ getEmailFromHandle CONF " Alice " = getEmailFromHandle CONF "alice".
Proof.
  intros E. unfold getEmailFromHandle. split.
  - apply lookupHandle_normalize, E.
  - apply lookupHandle_normalize. reflexivity.
Qed.


Lemma C7_resolver_insensitive_witness :
  normalize " ALICE" = normalize " Alice "
  /\ getEmailFromHandle sampleConf " ALICE" = Some "Alice@Example.com"
  /\ getEmailFromHandle sampleConf " Alice " = Some "Alice@Example.com"
  /\ getEmailFromHandle sampleConf "alice" = Some "Alice@Example.com".
Proof.
  pose proof (C7_resolver_insensitive sampleConf " ALICE" " Alice " eq_refl)
    as [H1 H2].
  split; [reflexivity|].
  split; [reflexivity|].
  split; [rewrite <- H1; reflexivity|rewrite <- H2, <- H1; reflexivity].
Defined.

(** ** Activity extractor: the map of editors *)

Lemma collectEditors_selected (M : Z) (vs : list Version) :
  forall index acc,
    collectEditors M index vs acc
    = fold_left recordAuthor (selectedFrom M index vs) acc.
Proof.
  induction vs as [|v rest IH]; intros index acc; simpl.
  - reflexivity.
  - rewrite IH.
    destruct ((index =? 0)%nat || isAfter (created_at v) M); reflexivity.
Qed.

Lemma editorsMapOf_selected (M : Z) (vs : list Version) :
  editorsMapOf M vs = fold_left recordAuthor (selected M vs) [].
Proof. apply collectEditors_selected. Qed.

Lemma mem_true_iff (x : string) (l : list string) : mem x l = true <-> In x l.
Proof.
  unfold mem. rewrite existsb_exists. split.
  - intros [y [Hy E]]. apply String.eqb_eq in E. now subst.
  - intros H. exists x. split; [assumption|apply String.eqb_refl].
Qed.

Lemma mem_false_iff (x : string) (l : list string) : mem x l = false <-> ~ In x l.
Proof.
  rewrite <- mem_true_iff. destruct (mem x l); split; congruence.
Qed.

Lemma keys_Map_set (m : list (string * string)) (k v : string) :
  keys (Map_set m k v) = if mem k (keys m) then keys m else (keys m ++ [k])%list.
Proof.
  induction m as [|[k' v'] rest IH]; simpl.
  - reflexivity.
  - rewrite (String.eqb_sym k k').
    destruct (String.eqb k' k) eqn:E; simpl.
    + reflexivity.
    + fold (keys (Map_set rest k v)). rewrite IH.
      fold (mem k (keys rest)). destruct (mem k (keys rest)); reflexivity.
Qed.

Lemma Map_get_Map_set (m : list (string * string)) (k v i : string) :
  Map_get (Map_set m k v) i = if String.eqb k i then Some v else Map_get m i.
Proof.
  induction m as [|[k' v'] rest IH]; simpl.
  - reflexivity.
  - destruct (String.eqb k' k) eqn:E; simpl.
    + apply String.eqb_eq in E. subst k'.
      destruct (String.eqb k i); reflexivity.
    + rewrite IH. destruct (String.eqb k' i) eqn:E'; [|reflexivity].
      apply String.eqb_eq in E'. subst k'.
      rewrite String.eqb_sym, E. reflexivity.
Qed.

Lemma NoDup_keys_Map_set (m : list (string * string)) (k v : string) :
  NoDup (keys m) -> NoDup (keys (Map_set m k v)).
Proof.
  intros N. rewrite keys_Map_set. destruct (mem k (keys m)) eqn:E.
  - assumption.
  - apply mem_false_iff in E.
    apply NoDup_app; [assumption|repeat constructor; intros []|].
    intros x Hx [<-|[]]. contradiction.
Qed.

Lemma NoDup_keys_fold (l : list Version) :
  forall acc, NoDup (keys acc) -> NoDup (keys (fold_left recordAuthor l acc)).
Proof.
  induction l as [|v rest IH]; intros acc N; simpl.
  - assumption.
  - apply IH, NoDup_keys_Map_set, N.
Qed.

Lemma Map_get_In (m : list (string * string)) (i h : string) :
  NoDup (keys m) -> In (i, h) m -> Map_get m i = Some h.
Proof.
  induction m as [|[k v] rest IH]; simpl; intros N H.
  - contradiction.
  - inversion N as [|? ? Hk N']; subst.
    destruct H as [H|H].
    + inversion H; subst. rewrite String.eqb_refl. reflexivity.
    + destruct (String.eqb k i) eqn:E.
      * apply String.eqb_eq in E. subst k. exfalso. apply Hk.
        change i with (fst (i, h)). apply in_map, H.
      * apply IH; assumption.
Qed.

Lemma Map_get_fold (i : string) (l : list Version) :
  forall acc,
    Map_get (fold_left recordAuthor l acc) i
    = fold_left (fun o v => if String.eqb (id (user v)) i
                            then Some (handle (user v)) else o)
                l (Map_get acc i).
Proof.
  induction l as [|v rest IH]; intros acc; simpl.
  - reflexivity.
  - rewrite IH. unfold recordAuthor. rewrite Map_get_Map_set. reflexivity.
Qed.

Lemma discover_ext (l : list string) :
  forall s1 s2, (forall y, mem y s1 = mem y s2) -> discover s1 l = discover s2 l.
Proof.
  induction l as [|x rest IH]; intros s1 s2 H; simpl.
  - reflexivity.
  - rewrite <- (H x). destruct (mem x s1).
    + apply IH, H.
    + f_equal. apply IH. intros y. simpl. rewrite (H y). reflexivity.
Qed.

Lemma mem_app (y : string) (a b : list string) :
  mem y (a ++ b) = mem y a || mem y b.
Proof. unfold mem. apply existsb_app. Qed.

Lemma keys_fold (l : list Version) :
  forall acc,
    keys (fold_left recordAuthor l acc)
    = (keys acc ++ discover (keys acc) (map authorId l))%list.
Proof.
  induction l as [|v rest IH]; intros acc; simpl.
  - rewrite app_nil_r. reflexivity.
  - rewrite IH. unfold recordAuthor, authorId. rewrite keys_Map_set.
    destruct (mem (id (user v)) (keys acc)) eqn:E.
    + reflexivity.
    + rewrite <- app_assoc. simpl. do 2 f_equal.
      apply discover_ext. intros y. rewrite mem_app. simpl.
      rewrite orb_false_r. apply orb_comm.
Qed.

(** ** Activity extractor: resolution into [entry.editors] *)

Lemma resolveEditors_spec (CONF : Conf) (m : list (string * string)) :
  forall acc l,
    resolveEditors CONF m acc l
    = (Fulfilled (acc ++ resolved CONF m)%list,
       (l ++ map (resolveLine CONF) m)%list).
Proof.
  induction m as [|[i h] rest IH]; intros acc l; simpl.
  - unfold ret. rewrite !app_nil_r. reflexivity.
  - unfold resolveLine at 1. simpl.
    destruct (getEmailFromHandle CONF h) as [e|]; unfold bind, log;
      rewrite IH, <- !app_assoc; reflexivity.
Qed.

Lemma addEditors_spec (CONF : Conf) (M : Z) (vf : VersionedFile) (l : list LogLine) :
  addEditors CONF M vf l
  = (Fulfilled (entryOf CONF M vf), (l ++ entryLog CONF M vf)%list).
Proof.
  unfold addEditors, bind, log, ret. rewrite resolveEditors_spec.
  unfold entryOf, entryLog. simpl. rewrite <- app_assoc. reflexivity.
Qed.

Lemma addEditorsSince_spec (CONF : Conf) (M : Z) (vfs : list VersionedFile) :
  forall l,
    addEditorsSince CONF M vfs l
    = (Fulfilled (map (entryOf CONF M) vfs),
       (l ++ flat_map (entryLog CONF M) vfs)%list).
Proof.
  unfold addEditorsSince.
  induction vfs as [|vf rest IH]; intros l; simpl.
  - unfold ret. rewrite app_nil_r. reflexivity.
  - unfold bind at 1. rewrite addEditors_spec.
    unfold bind at 1. rewrite IH. unfold ret.
    rewrite <- app_assoc. reflexivity.
Qed.

Lemma resolved_In (CONF : Conf) (m : list (string * string)) (i h e : string) :
  In (i, h) m -> getEmailFromHandle CONF h = Some e ->
  In {| Editor.name := h; Editor.email := e |} (resolved CONF m).
Proof.
  induction m as [|[k v] rest IH]; simpl; intros H E.
  - contradiction.
  - destruct H as [H|H].
    + inversion H; subst. rewrite E. left. reflexivity.
    + destruct (getEmailFromHandle CONF v); [right|]; apply IH; assumption.
Qed.

Lemma resolved_names (CONF : Conf) (m : list (string * string)) (ed : Editor.t) :
  In ed (resolved CONF m) ->
  getEmailFromHandle CONF (Editor.name ed) = Some (Editor.email ed)
  /\ exists i, In (i, Editor.name ed) m.
Proof.
  induction m as [|[k v] rest IH]; simpl; intros H.
  - contradiction.
  - destruct (getEmailFromHandle CONF v) as [e|] eqn:E.
    + destruct H as [H|H].
      * subst ed. simpl. split; [assumption|]. exists k. left. reflexivity.
      * destruct (IH H) as [H1 [i Hi]]. split; [assumption|].
        exists i. right. assumption.
    + destruct (IH H) as [H1 [i Hi]]. split; [assumption|].
      exists i. right. assumption.
Qed.

Lemma fold_recordAuthor_head (l : list Version) :
  forall k v acc, exists h rest,
    fold_left recordAuthor l ((k, v) :: acc) = (k, h) :: rest.
Proof.
  induction l as [|x xs IH]; intros k v acc; simpl.
  - exists v, acc. reflexivity.
  - unfold recordAuthor at 2. simpl.
    destruct (String.eqb k (id (user x))); apply IH.
Qed.

(** C5.  Whatever the marker, the author of the first version of a
    non-empty version list is in the extractor's map of editors (as its
    first key), also when that version was created at or before the
    marker; the handle kept for that id is the one of the last recorded
    version by the same author, and when that handle resolves the author
    is among the editors of the entry. *)
Theorem C5_first_author_always_included
    (CONF : Conf) (M : Z) (v : Version) (V : list Version) :
  exists h rest,
    editorsMapOf M (v :: V) = (id (user v), h) :: rest
    /\ In (id (user v)) (keys (editorsMapOf M (v :: V)))
    /\ lastHandle (id (user v)) (selected M (v :: V)) = Some h
    /\ forall (f : File.t) (l : list LogLine), exists entry out,
         addEditors CONF M {| vf_file := f; vf_versions := v :: V |} l
         = (Fulfilled entry, out)
         /\ forall e, getEmailFromHandle CONF h = Some e ->
                      In {| Editor.name := h; Editor.email := e |} (editors entry).
Proof.
  assert (N : NoDup (keys (editorsMapOf M (v :: V)))).
  { rewrite editorsMapOf_selected. apply NoDup_keys_fold. constructor. }
  destruct (fold_recordAuthor_head (selectedFrom M 1 V)
              (id (user v)) (handle (user v)) []) as [h [rest E]].
  assert (E' : editorsMapOf M (v :: V) = (id (user v), h) :: rest).
  { rewrite editorsMapOf_selected. unfold selected. simpl. exact E. }
  exists h, rest. split; [exact E'|]. split; [rewrite E'; left; reflexivity|].
  split.
  - unfold lastHandle.
    change (@None string) with (Map_get [] (id (user v))).
    rewrite <- Map_get_fold, <- editorsMapOf_selected.
    apply Map_get_In; [exact N|]. rewrite E'. left. reflexivity.
  - intros f l. rewrite addEditors_spec. eexists. eexists.
    split; [reflexivity|]. intros e He. unfold entryOf. simpl editors.
    apply resolved_In with (i := id (user v)); [|exact He].
    simpl vf_versions. rewrite E'. left. reflexivity.
Qed.

(** C6.  The extractor's map of editors has no two entries with the same
    user id; its keys are the ids of the recorded versions in discovery
    order (first occurrence); the handle kept for an id is the spelling of
    the last recorded version by that id; and in the scenario
    [v0 (A, old); v1 (B, new); v2 (A, old)] the editors are [A; B], in that
    order, A with the spelling of v0. *)
Theorem C6_distinct_ids_latest_handle_discovery_order (M : Z) (V : list Version) :
  NoDup (keys (editorsMapOf M V))
  /\ keys (editorsMapOf M V) = discover [] (map authorId (selected M V))
  /\ (forall i h, In (i, h) (editorsMapOf M V) ->
                  lastHandle i (selected M V) = Some h)
  /\ (forall (CONF : Conf) (f : File.t) (l : list LogLine),
        fst (addEditors CONF M {| vf_file := f; vf_versions := V |} l)
        = Fulfilled {| file := f; versions := V;
                       editors := resolved CONF (editorsMapOf M V) |})
  /\ (forall A B hA hB hA' n0 n1 n2 t0 t1 t2,
        A <> B -> M < t1 -> t2 <= M ->
        editorsMapOf M
          [ {| version_id := n0; created_at := t0;
               user := {| id := A; handle := hA |} |};
            {| version_id := n1; created_at := t1;
               user := {| id := B; handle := hB |} |};
            {| version_id := n2; created_at := t2;
               user := {| id := A; handle := hA' |} |} ]
        = [(A, hA); (B, hB)]).
Proof.
  assert (N : NoDup (keys (editorsMapOf M V))).
  { rewrite editorsMapOf_selected. apply NoDup_keys_fold. constructor. }
  split; [exact N|]. split; [|split; [|split]].
  - rewrite editorsMapOf_selected, keys_fold. reflexivity.
  - intros i h H. unfold lastHandle.
    change (@None string) with (Map_get [] i).
    rewrite <- Map_get_fold, <- editorsMapOf_selected.
    apply Map_get_In; assumption.
  - intros CONF f l. rewrite addEditors_spec. reflexivity.
  - intros A B hA hB hA' n0 n1 n2 t0 t1 t2 HAB H1 H2.
    apply Z.ltb_lt in H1. apply Z.ltb_ge in H2. apply String.eqb_neq in HAB.
    unfold editorsMapOf. cbn -[isAfter String.eqb].
    unfold isAfter. rewrite H1, H2, HAB. reflexivity.
Qed.


Lemma C6_distinct_ids_latest_handle_discovery_order_witness :
  "A" <> "B" /\ 1000 < 1500 /\ 800 <= 1000
  /\ editorsMapOf 1000 sampleVersions = [("A", "Alice"); ("B", "Bob")]
  /\ NoDup (keys (editorsMapOf 1000 sampleVersions)).
Proof.
  destruct (C6_distinct_ids_latest_handle_discovery_order 1000 sampleVersions)
    as (N & _ & _ & _ & S).
  assert (HAB : "A" <> "B") by discriminate.
  split; [exact HAB|]. split; [lia|]. split; [lia|]. split; [|exact N].
  apply (S "A" "B" "Alice" "Bob" "alice (old)" "30" "20" "10" 900 1500 800);
    [exact HAB|lia|lia].
Defined.

(** ** Editor-extraction stage: frame *)

(** C10.  The editor-extraction stage always resolves, with as many
    entries as it was given, in the same order, each with the [file] and
    the [versions] it came with. *)
Theorem C10_extraction_only_adds_editors
    (CONF : Conf) (M : Z) (entries : list VersionedFile) (l : list LogLine) :
  exists out l',
    addEditorsSince CONF M entries l = (Fulfilled out, l')
    /\ List.length out = List.length entries
    /\ map file out = map vf_file entries
    /\ map versions out = map vf_versions entries
    /\ forall k vf, nth_error entries k = Some vf ->
         exists entry, nth_error out k = Some entry
                       /\ file entry = vf_file vf
                       /\ versions entry = vf_versions vf.
Proof.
  rewrite addEditorsSince_spec. eexists. eexists. split; [reflexivity|].
  split; [apply length_map|].
  split; [rewrite map_map; reflexivity|].
  split; [rewrite map_map; reflexivity|].
  intros k vf H. exists (entryOf CONF M vf). split.
  - apply map_nth_error, H.
  - split; reflexivity.
Qed.

(** ** Promises and chains *)

Lemma bind_assoc {A B C : Type} (m : Chain A) (f : A -> Chain B)
      (g : B -> Chain C) (l : list LogLine) :
  bind (bind m f) g l = bind m (fun a => bind (f a) g) l.
Proof. unfold bind. destruct (m l) as [[a|e] l']; reflexivity. Qed.

Lemma length_mapi {A B : Type} (f : nat -> A -> B) (l : list A) :
  forall i, List.length (mapi f i l) = List.length l.
Proof. induction l as [|a rest IH]; intros i; simpl; [|rewrite IH]; reflexivity. Qed.

Lemma nth_error_mapi {A B : Type} (f : nat -> A -> B) (l : list A) :
  forall i k, nth_error (mapi f i l) k = option_map (f (i + k)%nat) (nth_error l k).
Proof.
  induction l as [|a rest IH]; intros i k; simpl.
  - destruct k; reflexivity.
  - destruct k as [|k]; simpl.
    + rewrite Nat.add_0_r. reflexivity.
    + rewrite IH. rewrite Nat.add_succ_r. reflexivity.
Qed.

Lemma Promise_all_fulfilled {A : Type} (ps : list (promise A)) :
  (forall p, In p ps -> exists a, p = Fulfilled a) ->
  exists vs, Promise_all ps = Fulfilled vs /\ ps = map Fulfilled vs.
Proof.
  induction ps as [|p rest IH]; intros H; simpl.
  - exists []. split; reflexivity.
  - destruct (H p (or_introl eq_refl)) as [a ->].
    destruct IH as [vs [E1 E2]].
    { intros q Hq. apply H. right. exact Hq. }
    rewrite E1. exists (a :: vs). split; [reflexivity|]. simpl. now rewrite <- E2.
Qed.

Lemma Promise_all_rejected {A : Type} (ps : list (promise A)) (e : Error) :
  Promise_all ps = Rejected e -> In (Rejected e) ps.
Proof.
  induction ps as [|p rest IH]; simpl; intros H.
  - discriminate.
  - destruct p as [a|e'].
    + destruct (Promise_all rest) as [l|e'']; [discriminate|].
      inversion H; subst. right. apply IH. reflexivity.
    + inversion H; subst. left. reflexivity.
Qed.

Lemma Promise_all_some_rejected {A : Type} (ps : list (promise A)) (e : Error) :
  In (Rejected e) ps -> exists e', Promise_all ps = Rejected e'.
Proof.
  induction ps as [|p rest IH]; simpl; intros H.
  - contradiction.
  - destruct p as [a|e'].
    + destruct H as [H|H]; [discriminate|].
      destruct (IH H) as [e'' ->]. exists e''. reflexivity.
    + exists e'. reflexivity.
Qed.

(** ** Dispatcher *)

Lemma sendRangePayloads_spec (CONF : Conf) (net : Network)
      (payloads : list Payload) (l : list LogLine) :
  sendRangePayloads CONF net payloads l
  = match Promise_all (mapi (fun i p => post net i (range_webhookURL CONF) p)
                            0 payloads) with
    | Fulfilled _ => (Fulfilled tt, (l ++ [LogSent (List.length payloads)])%list)
    | Rejected e => (Rejected e, l)
    end.
Proof.
  unfold sendRangePayloads, bind, await, log, ret.
  destruct (Promise_all _) as [rs|e]; [|reflexivity].
  rewrite length_mapi. reflexivity.
Qed.

(** The dispatch step resolves exactly when every POST gets a response;
    the status of the responses plays no part. *)
Lemma sendRangePayloads_fulfilled_iff (CONF : Conf) (net : Network)
      (payloads : list Payload) (l : list LogLine) :
  fst (sendRangePayloads CONF net payloads l) = Fulfilled tt
  <-> delivered CONF net payloads.
Proof.
  rewrite sendRangePayloads_spec. unfold delivered. split.
  - intros H i p Hp.
    destruct (post net i (range_webhookURL CONF) p) as [r|e] eqn:E.
    + exists r. reflexivity.
    + exfalso.
      destruct (Promise_all_some_rejected
                  (mapi (fun i p => post net i (range_webhookURL CONF) p) 0 payloads) e)
        as [e' E'].
      * apply nth_error_In with (n := i).
        rewrite nth_error_mapi, Hp. simpl. rewrite E. reflexivity.
      * rewrite E' in H. discriminate.
  - intros H.
    destruct (Promise_all_fulfilled
                (mapi (fun i p => post net i (range_webhookURL CONF) p) 0 payloads))
      as [vs [E _]].
    + intros q Hq. apply In_nth_error in Hq. destruct Hq as [k Hk].
      rewrite nth_error_mapi in Hk.
      destruct (nth_error payloads k) as [p|] eqn:Ep; [|discriminate].
      simpl in Hk. inversion Hk; subst.
      destruct (H k p Ep) as [r Hr]. exists r. exact Hr.
    + rewrite E. reflexivity.
Qed.

Lemma syncChain_fetched (CONF : Conf) (net : Network) (marker : Z) (l : list LogLine) :
  syncChain CONF net marker l
  = match fetched CONF net marker l with
    | (Fulfilled withVersions, l1) =>
        sendRangePayloads CONF net
          (rangePayloads (map (entryOf CONF marker) withVersions))
          (l1 ++ flat_map (entryLog CONF marker) withVersions)%list
    | (Rejected e, l1) => (Rejected e, l1)
    end.
Proof.
  unfold syncChain, fetched, bind.
  destruct (getFigmaProjectsForTeam net (figma_teamID CONF) l) as [[ps|e] l1];
    [|reflexivity].
  destruct (getFigmaFilesForProjects net ps l1) as [[fs|e] l2]; [|reflexivity].
  destruct (filterFigmaFilesToEditedAfter marker fs l2) as [[rs|e] l3];
    [|reflexivity].
  destruct (getFigmaVersionForFiles net rs l3) as [[vfs|e] l4]; [|reflexivity].
  rewrite addEditorsSince_spec. unfold createRangePayloads, ret. reflexivity.
Qed.

(** ** Orchestrator: the marker *)

Lemma failsAt_rejects (CONF : Conf) (net : Network) (marker : Z)
      (stage : Stage) (e : Error) :
  failsAt CONF net marker stage e ->
  fst (syncChain CONF net marker []) = Rejected e.
Proof.
  intros H. destruct H as [e l H1 | ps l1 e l H1 H2
                           | ps l1 fs l2 rs l3 e l H1 H2 H3 H4
                           | vfs l4 entries l5 payloads l6 e l H1 H2 H3 H4].
  - unfold syncChain, bind. rewrite H1. reflexivity.
  - unfold syncChain, bind. rewrite H1, H2. reflexivity.
  - unfold syncChain, bind. rewrite H1, H2, H3, H4. reflexivity.
  - rewrite syncChain_fetched, H1.
    rewrite addEditorsSince_spec in H2. inversion H2; subst.
    unfold createRangePayloads, ret in H3. inversion H3; subst.
    rewrite H4. reflexivity.
Qed.

Lemma settle_rejected (CONF : Conf) (now : Z) (c : Cycle) (rest : list Cycle)
      (p : Process) (e : Error) :
  fst (syncChain CONF (chainNet c) (chainMarker c) []) = Rejected e ->
  lastSyncedTime (settle CONF now c rest p) = lastSyncedTime p
  /\ inflight (settle CONF now c rest p) = rest
  /\ In LogUnsuccessful (console (settle CONF now c rest p)).
Proof.
  unfold settle. destruct (syncChain _ _ _ _) as [[u|e'] out]; simpl; intros H.
  - discriminate.
  - split; [reflexivity|]. split; [reflexivity|].
    apply in_or_app. right. apply in_or_app. right.
    unfold catchHandler. right. left. reflexivity.
Qed.

Lemma settle_fulfilled (CONF : Conf) (now : Z) (c : Cycle) (rest : list Cycle)
      (p : Process) (out : list LogLine) :
  syncChain CONF (chainNet c) (chainMarker c) [] = (Fulfilled tt, out) ->
  settle CONF now c rest p
  = {| clock := now;
       lastSyncedTime := syncStartTime c - 60000;
       inflight := rest;
       console := (console p ++ out ++ [LogSuccess])%list |}.
Proof.
  unfold settle. intros ->. unfold subtractMinutes.
  replace (syncStartTime c - 1 * 60000) with (syncStartTime c - 60000) by lia.
  reflexivity.
Qed.

Lemma rejected_failsAt (CONF : Conf) (net : Network) (marker : Z) (e : Error) :
  fst (syncChain CONF net marker []) = Rejected e ->
  exists stage, failsAt CONF net marker stage e.
Proof.
  intros H.
  destruct (getFigmaProjectsForTeam net (figma_teamID CONF) [])
    as [[ps|e1] l1] eqn:E1.
  2:{ exists ProjectListing. unfold syncChain, bind in H. rewrite E1 in H.
      simpl in H. inversion H; subst. eapply fails_projects, E1. }
  destruct (getFigmaFilesForProjects net ps l1) as [[fs|e2] l2] eqn:E2.
  2:{ exists FileListing. unfold syncChain, bind in H. rewrite E1, E2 in H.
      simpl in H. inversion H; subst. eapply fails_files; eassumption. }
  destruct (filterFigmaFilesToEditedAfter marker fs l2) as [[rs|e3] l3] eqn:E3.
  2:{ unfold filterFigmaFilesToEditedAfter, bind, log, ret in E3.
      destruct (0 <? _)%nat; discriminate. }
  destruct (getFigmaVersionForFiles net rs l3) as [[vfs|e4] l4] eqn:E4.
  2:{ exists VersionFetch. unfold syncChain, bind in H.
      rewrite E1, E2, E3, E4 in H. simpl in H. inversion H; subst.
      eapply fails_versions; eassumption. }
  assert (F : fetched CONF net marker [] = (Fulfilled vfs, l4)).
  { unfold fetched, bind. rewrite E1, E2, E3, E4. reflexivity. }
  exists Dispatch. rewrite syncChain_fetched, F in H.
  destruct (sendRangePayloads CONF net
              (rangePayloads (map (entryOf CONF marker) vfs))
              (l4 ++ flat_map (entryLog CONF marker) vfs)%list)
    as [[u|e5] l5] eqn:E5; simpl in H; [discriminate|].
  inversion H; subst.
  eapply fails_dispatch;
    [exact F|apply addEditorsSince_spec|reflexivity|exact E5].
Qed.

(** C2.  A cycle entered at time [T] (from state [p]) records [T] as its
    start time; when its chain completes successfully, at whatever later
    time [now] and in whatever state [q] the process is by then, the marker
    becomes [T] minus one minute (60000 ms). *)
Theorem C2_success_sets_marker_to_start_minus_one_minute
    (CONF : Conf) (p q : Process) (T now : Z) (net : Network) (k : nat)
    (out : list LogLine) :
  let c := {| syncStartTime := T;
              chainMarker := lastSyncedTime p;
              chainNet := net |} in
  syncChain CONF net (lastSyncedTime p) [] = (Fulfilled tt, out) ->
  nth_error (inflight q) k = Some c ->
  nth_error (inflight (step CONF p (Trigger T net))) (List.length (inflight p))
  = Some c
  /\ lastSyncedTime (step CONF q (Settle now k)) = T - 60000
  /\ (inflight p = [] ->
      lastSyncedTime (run CONF p [Trigger T net; Settle now 0]) = T - 60000).
Proof.
  intros c Hok Hk. split; [|split].
  - simpl. rewrite nth_error_app2 by lia. rewrite Nat.sub_diag. reflexivity.
  - simpl. rewrite Hk. rewrite (settle_fulfilled CONF now c _ q out Hok).
    reflexivity.
  - intros Hp. unfold run. simpl. rewrite Hp. simpl.
    rewrite (settle_fulfilled CONF now c _ _ out Hok). reflexivity.
Qed.

(** C3.  When the chain of a cycle fails, at whichever stage, the marker
    after the cycle is the marker before it, the failure is logged, and the
    next call of [syncFigmaToRange] builds its chain over that old
    marker. *)
Theorem C3_failure_leaves_marker_unchanged
    (CONF : Conf) (q : Process) (now : Z) (k : nat) (c : Cycle)
    (stage : Stage) (e : Error) :
  nth_error (inflight q) k = Some c ->
  failsAt CONF (chainNet c) (chainMarker c) stage e ->
  let q' := step CONF q (Settle now k) in
  lastSyncedTime q' = lastSyncedTime q
  /\ In LogUnsuccessful (console q')
  /\ forall T' net',
       lastSyncedTime (step CONF q' (Trigger T' net')) = lastSyncedTime q
       /\ nth_error (inflight (step CONF q' (Trigger T' net')))
                    (List.length (inflight q'))
          = Some {| syncStartTime := T';
                    chainMarker := lastSyncedTime q;
                    chainNet := net' |}.
Proof.
  intros Hk Hfail q'. apply failsAt_rejects in Hfail.
  destruct (settle_rejected CONF now c (removeNth k (inflight q)) q e Hfail)
    as (Hm & Hi & Hl).
  assert (Eq : q' = settle CONF now c (removeNth k (inflight q)) q).
  { unfold q'. simpl. rewrite Hk. reflexivity. }
  rewrite Eq. split; [exact Hm|]. split; [exact Hl|].
  intros T' net'. simpl. split; [exact Hm|].
  rewrite nth_error_app2 by lia. rewrite Nat.sub_diag, Hm. reflexivity.
Qed.

Lemma C2_success_sets_marker_to_start_minus_one_minute_witness :
  lastSyncedTime
    (run sampleConf (idle 1000) [Trigger 100000 (respondingNet 200);
                                 Settle 734000 0])
  = 40000.
Proof.
  refine (proj2 (proj2
    (C2_success_sets_marker_to_start_minus_one_minute
       sampleConf (idle 1000)
       (step sampleConf (idle 1000) (Trigger 100000 (respondingNet 200)))
       100000 734000 (respondingNet 200) 0
       (snd (syncChain sampleConf (respondingNet 200) 1000 []))
       _ _)) _).
  - vm_compute. reflexivity.
  - reflexivity.
  - reflexivity.
Defined.

Lemma C3_failure_leaves_marker_unchanged_witness :
  failsAt sampleConf resetNet 1000 FileListing resetError
  /\ lastSyncedTime
       (run sampleConf (idle 1000) [Trigger 100000 resetNet; Settle 100500 0])
     = 1000
  /\ nth_error
       (inflight (run sampleConf (idle 1000)
                      [Trigger 100000 resetNet; Settle 100500 0;
                       Trigger 700000 (respondingNet 200)])) 0
     = Some {| syncStartTime := 700000; chainMarker := 1000;
               chainNet := respondingNet 200 |}.
Proof.
  assert (F : failsAt sampleConf resetNet 1000 FileListing resetError).
  { eapply fails_files; vm_compute; reflexivity. }
  split; [exact F|].
  destruct (C3_failure_leaves_marker_unchanged
              sampleConf
              (step sampleConf (idle 1000) (Trigger 100000 resetNet))
              100500 0
              {| syncStartTime := 100000; chainMarker := 1000;
                 chainNet := resetNet |}
              FileListing resetError eq_refl F) as (H1 & _ & H3).
  split; [exact H1|].
  destruct (H3 700000 (respondingNet 200)) as [_ H4].
  exact H4.
Defined.

(** C1 (the code at a webhook that answers 204).  Every POST of the cycle
    is answered with status 204; the callback of [responses.forEach] does
    build a rejection for such a response, yet the dispatch step resolves,
    the chain resolves and the marker is advanced. *)
Theorem C1_status_204_dispatch_resolves :
  (forall i p, post (respondingNet 204) i (range_webhookURL sampleConf) p
               = Fulfilled {| status := 204 |})
  /\ checkStatus {| status := 204 |}
     = Some (Rejected {| code := None; message := "[object Object]" |})
  /\ sendRangePayloads sampleConf (respondingNet 204)
       (rangePayloads
          [entryOf sampleConf 1000
             {| vf_file := sampleFile; vf_versions := sampleVersions |}]) []
     = (Fulfilled tt, [LogSent 2])
  /\ fst (syncChain sampleConf (respondingNet 204) 1000 []) = Fulfilled tt
  /\ lastSyncedTime
       (run sampleConf (idle 1000) (firstCycle 100000 (respondingNet 204)))
     = 40000.
Proof.
  split; [reflexivity|]. split; [reflexivity|].
  split; [vm_compute; reflexivity|].
  split; vm_compute; reflexivity.
Qed.

(** ** Orchestrator: monotonicity of the marker *)

Lemma step_SerialInv (CONF : Conf) (p : Process) (ev : Event) :
  SerialInv p ->
  clock p <= eventTime ev ->
  match ev with Trigger _ _ => inflight p = [] | Settle _ _ => True end ->
  SerialInv (step CONF p ev)
  /\ lastSyncedTime p <= lastSyncedTime (step CONF p ev).
Proof.
  intros [Hm Hi] Hclock Hserial. destruct ev as [now net|now k]; simpl in *.
  - split; [|lia]. split; simpl; [lia|].
    right. rewrite Hserial. simpl. eexists. split; [reflexivity|]. simpl. lia.
  - destruct Hi as [Hi|[c (Hi & Hc1 & Hc2)]]; rewrite Hi.
    + destruct k; simpl; (split; [split; [assumption|left; assumption]|lia]).
    + destruct k as [|k]; simpl.
      * unfold settle.
        destruct (syncChain CONF (chainNet c) (chainMarker c) []) as [[u|e] out];
          unfold SerialInv, subtractMinutes; simpl;
          (split; [split; [lia|left; reflexivity]|lia]).
      * destruct k; simpl;
          (split; [split; [assumption|right; exists c; auto]|lia]).
Qed.

Lemma markers_sorted (CONF : Conf) (evs : list Event) :
  forall p,
    SerialInv p -> serial CONF p evs -> clockMonotone CONF p evs ->
    Sorted Z.le (lastSyncedTime p :: markers CONF p evs).
Proof.
  induction evs as [|ev rest IH]; intros p HI Hs Hc; simpl.
  - repeat constructor.
  - destruct Hs as [Hs1 Hs2]. destruct Hc as [Hc1 Hc2].
    destruct (step_SerialInv CONF p ev HI Hc1 Hs1) as [HI' Hle].
    constructor.
    + apply IH; assumption.
    + constructor. exact Hle.
Qed.

Lemma boot_SerialInv (CONF : Conf) (now0 : Z) :
  1 <= initialImportHistoryMinutes (settings CONF) -> SerialInv (boot CONF now0).
Proof.
  intros H. unfold SerialInv, boot, subtractMinutes. simpl.
  split; [nia|left; reflexivity].
Qed.

(** C4 as stated fails: with an initial history window of zero minutes the
    marker starts at the load time, and the first successful cycle, which
    starts in the same millisecond, moves it one minute back. *)
Lemma C4_marker_decreases_with_zero_history :
  serial zeroHistoryConf (boot zeroHistoryConf 1000000)
         (firstCycle 1000000 (respondingNet 200))
  /\ clockMonotone zeroHistoryConf (boot zeroHistoryConf 1000000)
                   (firstCycle 1000000 (respondingNet 200))
  /\ markerHistory zeroHistoryConf 1000000
                   (firstCycle 1000000 (respondingNet 200))
     = [1000000; 1000000; 940000]
  /\ ~ StronglySorted Z.le
        (markerHistory zeroHistoryConf 1000000
                       (firstCycle 1000000 (respondingNet 200))).
Proof.
  assert (E : markerHistory zeroHistoryConf 1000000
                            (firstCycle 1000000 (respondingNet 200))
              = [1000000; 1000000; 940000]) by (vm_compute; reflexivity).
  split; [simpl; auto|]. split; [simpl; lia|]. split; [exact E|].
  rewrite E. intros H.
  apply StronglySorted_inv in H as [_ H].
  rewrite Forall_forall in H. specialize (H 940000). simpl in H. lia.
Qed.

(** The window of one minute is what the counterexample calls for: with
    any shorter window a first cycle that starts at load time and succeeds
    moves the marker back. *)
Lemma marker_decreases_below_one_minute (CONF : Conf) (now0 : Z)
      (net : Network) (out : list LogLine) :
  initialImportHistoryMinutes (settings CONF) < 1 ->
  syncChain CONF net (lastSyncedTime (boot CONF now0)) [] = (Fulfilled tt, out) ->
  ~ StronglySorted Z.le (markerHistory CONF now0 (firstCycle now0 net)).
Proof.
  intros Hh Hok H. unfold markerHistory, firstCycle in H. simpl in H.
  rewrite (settle_fulfilled CONF (now0 + 500)
             {| syncStartTime := now0;
                chainMarker := lastSyncedTime (boot CONF now0);
                chainNet := net |} _ _ out Hok) in H.
  simpl in H. apply StronglySorted_inv in H as [_ H].
  rewrite Forall_forall in H. specialize (H (now0 - 60000)).
  unfold subtractMinutes in H.
  assert (now0 - initialImportHistoryMinutes (settings CONF) * 60000
          <= now0 - 60000) by (apply H; simpl; auto).
  nia.
Qed.

(** C4, amended.  When the configured initial history window is at least
    one minute, no cycle is started while another is in flight and the
    wall clock never goes back, the marker never decreases over a run:
    each event leaves it unchanged or moves it forward. *)
Theorem C4_marker_monotone_with_history_window
    (CONF : Conf) (now0 : Z) (evs : list Event) :
  1 <= initialImportHistoryMinutes (settings CONF) ->
  serial CONF (boot CONF now0) evs ->
  clockMonotone CONF (boot CONF now0) evs ->
  StronglySorted Z.le (markerHistory CONF now0 evs).
Proof.
  intros Hh Hs Hc. apply Sorted_StronglySorted.
  - intros x y z. apply Z.le_trans.
  - apply markers_sorted; [apply boot_SerialInv, Hh|exact Hs|exact Hc].
Qed.

Lemma C4_marker_monotone_with_history_window_witness :
  markerHistory sampleConf 90000000
    (firstCycle 90000000 (respondingNet 200)
     ++ firstCycle 90600000 resetNet
     ++ firstCycle 91200000 (respondingNet 200))
  = [3600000; 3600000; 89940000; 89940000; 89940000; 89940000; 91140000]
  /\ StronglySorted Z.le
       (markerHistory sampleConf 90000000
          (firstCycle 90000000 (respondingNet 200)
           ++ firstCycle 90600000 resetNet
           ++ firstCycle 91200000 (respondingNet 200))).
Proof.
  split; [vm_compute; reflexivity|].
  apply C4_marker_monotone_with_history_window.
  - simpl. lia.
  - simpl. repeat split; reflexivity.
  - simpl. lia.
Defined.

(** Without the assumption that cycles do not overlap the marker can go
    back: a later cycle that settles first is overtaken by an earlier
    one. *)
Example overlapping_cycles_move_marker_back :
  markerHistory sampleConf 90000000
    [Trigger 90000000 (respondingNet 200); Trigger 90600000 (respondingNet 200);
     Settle 90601000 1; Settle 90602000 0]
  = [3600000; 3600000; 3600000; 90540000; 89940000].
Proof. vm_compute. reflexivity. Qed.

(** ** Unresolved editors *)

Lemma entryLog_not_found (CONF : Conf) (M : Z) (vf : VersionedFile) (i h : string) :
  In (i, h) (editorsMapOf M (vf_versions vf)) ->
  getEmailFromHandle CONF h = None ->
  In (LogNotFound h) (entryLog CONF M vf).
Proof.
  intros Hin Hnone. unfold entryLog. right.
  apply in_map_iff. exists (i, h). split; [|exact Hin].
  unfold resolveLine. simpl. rewrite Hnone. reflexivity.
Qed.

Lemma rangePayloads_In (entries : list Entry) (p : Payload) :
  In p (rangePayloads entries) <->
  exists entry ed, In entry entries /\ In ed (editors entry)
                   /\ p = rangePayload entry ed.
Proof.
  unfold rangePayloads. rewrite in_flat_map. split.
  - intros [entry [He Hp]]. apply in_map_iff in Hp. destruct Hp as [ed [E Hed]].
    exists entry, ed. auto.
  - intros [entry [ed (He & Hed & E)]]. exists entry. split; [exact He|].
    apply in_map_iff. exists ed. auto.
Qed.

(** C8.  In a cycle whose reads succeed and whose POSTs are all answered,
    an editor whose handle is not in the table does not abort anything: the
    extraction stage resolves, a not-found line is logged, no editor of
    that name is in any entry and every payload sent is the payload of an
    editor that is, the chain resolves, and when it settles the marker is
    advanced to the start time minus one minute. *)
Theorem C8_unresolved_editor_is_skipped
    (CONF : Conf) (q : Process) (now : Z) (k : nat) (c : Cycle)
    (vfs : list VersionedFile) (l0 : list LogLine)
    (vf : VersionedFile) (i h : string) :
  nth_error (inflight q) k = Some c ->
  fetched CONF (chainNet c) (chainMarker c) [] = (Fulfilled vfs, l0) ->
  (forall n p, exists resp,
      post (chainNet c) n (range_webhookURL CONF) p = Fulfilled resp) ->
  In vf vfs ->
  In (i, h) (editorsMapOf (chainMarker c) (vf_versions vf)) ->
  getEmailFromHandle CONF h = None ->
  exists entries l1 out,
    addEditorsSince CONF (chainMarker c) vfs l0 = (Fulfilled entries, l1)
    /\ In (LogNotFound h) l1
    /\ (forall entry ed, In entry entries -> In ed (editors entry) ->
                         Editor.name ed <> h)
    /\ (forall p, In p (rangePayloads entries) ->
          exists entry ed, In entry entries /\ In ed (editors entry)
                           /\ Editor.name ed <> h /\ p = rangePayload entry ed)
    /\ syncChain CONF (chainNet c) (chainMarker c) []
       = sendRangePayloads CONF (chainNet c) (rangePayloads entries) l1
    /\ syncChain CONF (chainNet c) (chainMarker c) [] = (Fulfilled tt, out)
    /\ In (LogNotFound h) out
    /\ lastSyncedTime (step CONF q (Settle now k)) = syncStartTime c - 60000
    /\ In (LogNotFound h) (console (step CONF q (Settle now k)))
    /\ In LogSuccess (console (step CONF q (Settle now k))).
Proof.
  intros Hk Hf Hpost Hvf Hin Hnone.
  set (M := chainMarker c) in *. set (net := chainNet c) in *.
  set (entries := map (entryOf CONF M) vfs).
  set (l1 := (l0 ++ flat_map (entryLog CONF M) vfs)%list).
  assert (Hlog : In (LogNotFound h) l1).
  { unfold l1. apply in_or_app. right. apply in_flat_map. exists vf.
    split; [exact Hvf|]. eapply entryLog_not_found; eassumption. }
  assert (Hnames : forall entry ed, In entry entries -> In ed (editors entry) ->
                                    Editor.name ed <> h).
  { intros entry ed He Hed Heq. unfold entries in He.
    apply in_map_iff in He. destruct He as [vf' [<- _]].
    unfold entryOf in Hed. simpl in Hed.
    apply resolved_names in Hed. destruct Hed as [Hres _].
    rewrite Heq, Hnone in Hres. discriminate. }
  assert (Hsend : sendRangePayloads CONF net (rangePayloads entries) l1
                  = (Fulfilled tt,
                     (l1 ++ [LogSent (List.length (rangePayloads entries))])%list)).
  { rewrite sendRangePayloads_spec.
    destruct (Promise_all_fulfilled
                (mapi (fun n p => post net n (range_webhookURL CONF) p) 0
                      (rangePayloads entries))) as [rs [E _]].
    - intros pr Hpr. apply In_nth_error in Hpr. destruct Hpr as [n Hn].
      rewrite nth_error_mapi in Hn.
      destruct (nth_error (rangePayloads entries) n) as [p|]; [|discriminate].
      simpl in Hn. inversion Hn; subst.
      destruct (Hpost n p) as [r Hr]. exists r. exact Hr.
    - rewrite E. reflexivity. }
  assert (Hchain : syncChain CONF net M []
                   = sendRangePayloads CONF net (rangePayloads entries) l1).
  { rewrite syncChain_fetched, Hf. reflexivity. }
  exists entries, l1,
    (l1 ++ [LogSent (List.length (rangePayloads entries))])%list.
  split; [apply addEditorsSince_spec|]. split; [exact Hlog|].
  split; [exact Hnames|]. split.
  { intros p Hp. apply rangePayloads_In in Hp.
    destruct Hp as [entry [ed (He & Hed & E)]]. exists entry, ed.
    repeat split; try assumption. eapply Hnames; eassumption. }
  split; [exact Hchain|]. split; [rewrite Hchain; exact Hsend|].
  split; [apply in_or_app; left; exact Hlog|].
  assert (Hstep : step CONF q (Settle now k)
                  = {| clock := now;
                       lastSyncedTime := syncStartTime c - 60000;
                       inflight := removeNth k (inflight q);
                       console :=
                         (console q
                          ++ (l1 ++ [LogSent (List.length (rangePayloads entries))])
                          ++ [LogSuccess])%list |}).
  { simpl. rewrite Hk. apply settle_fulfilled. rewrite <- Hsend. exact Hchain. }
  rewrite Hstep. simpl. split; [reflexivity|]. split.
  - apply in_or_app. right. apply in_or_app. left.
    apply in_or_app. left. exact Hlog.
  - apply in_or_app. right. apply in_or_app. right. left. reflexivity.
Qed.

Lemma C8_unresolved_editor_is_skipped_witness :
  getEmailFromHandle bobOnlyConf "Alice" = None
  /\ lastSyncedTime
       (run bobOnlyConf (idle 1000) (firstCycle 100000 (respondingNet 200)))
     = 40000
  /\ In (LogNotFound "Alice")
        (console (run bobOnlyConf (idle 1000)
                      (firstCycle 100000 (respondingNet 200))))
  /\ In LogSuccess
        (console (run bobOnlyConf (idle 1000)
                      (firstCycle 100000 (respondingNet 200)))).
Proof.
  destruct (C8_unresolved_editor_is_skipped
              bobOnlyConf
              (step bobOnlyConf (idle 1000) (Trigger 100000 (respondingNet 200)))
              100500 0
              {| syncStartTime := 100000; chainMarker := 1000;
                 chainNet := respondingNet 200 |}
              [sampleVersionedFile]
              (snd (fetched bobOnlyConf (respondingNet 200) 1000 []))
              sampleVersionedFile "A" "Alice")
    as (entries & l1 & out & _ & _ & _ & _ & _ & _ & _ & Hm & Hl & Hs).
  - reflexivity.
  - vm_compute. reflexivity.
  - intros n p. eexists. reflexivity.
  - left. reflexivity.
  - vm_compute. left. reflexivity.
  - reflexivity.
  - split; [reflexivity|]. split; [exact Hm|]. split; [exact Hl|exact Hs].
Defined.

(** ** Payload builder: the hash of the email *)


(** *** The digest has fewer values than an email has spellings *)























(** * Further properties of the code *)

(** ** Resolver: missing keys and the first match *)

Lemma lookupHandle_None (us : list (string * string)) (h : string) :
  lookupHandle us h = None
  <-> forall name e, In (name, e) us -> normalize name <> normalize h.
Proof.
  induction us as [|[n e0] rest IH]; simpl.
  - split; [intros _ name e []|reflexivity].
  - destruct (String.eqb (normalize n) (normalize h)) eqn:E.
    + split; [discriminate|]. intros H. exfalso.
      apply (H n e0); [left; reflexivity|]. apply String.eqb_eq, E.
    + rewrite IH. apply String.eqb_neq in E. split.
      * intros H name e [Heq|Hin]; [inversion Heq; subst; exact E|].
        eapply H, Hin.
      * intros H name e Hin. apply (H name e). right. exact Hin.
Qed.

(** X1.  [getEmailFromHandle] answers [undefined] exactly when no key of
    the table has the normal form of the handle; otherwise it answers the
    value of the first such key in enumeration order, also when later keys
    have the same normal form. *)
Theorem resolver_first_matching_key (CONF : Conf) (h : string) :
  (getEmailFromHandle CONF h = None
   <-> forall name e, In (name, e) (users CONF) ->
                      normalize name <> normalize h)
  /\ forall e,
       getEmailFromHandle CONF h = Some e
       <-> exists before name after,
             users CONF = (before ++ (name, e) :: after)%list
             /\ normalize name = normalize h
             /\ forall n' e', In (n', e') before ->
                              normalize n' <> normalize h.
Proof.
  unfold getEmailFromHandle. split; [apply lookupHandle_None|].
  generalize (users CONF) as us. intros us e.
  induction us as [|[n e0] rest IH]; simpl.
  - split; [discriminate|]. intros (before & name & after & H & _).
    destruct before; discriminate.
  - destruct (String.eqb (normalize n) (normalize h)) eqn:E.
    + apply String.eqb_eq in E. split.
      * intros H. inversion H; subst. exists [], n, rest.
        split; [reflexivity|]. split; [exact E|]. intros ? ? [].
      * intros (before & name & after & H & Hn & Hb).
        destruct before as [|[n1 e1] before]; simpl in H.
        -- injection H as -> -> ->. reflexivity.
        -- injection H as <- <- ->. exfalso.
           apply (Hb n e0); [left; reflexivity|exact E].
    + apply String.eqb_neq in E. rewrite IH. split.
      * intros (before & name & after & H & Hn & Hb).
        exists ((n, e0) :: before), name, after. simpl. rewrite H.
        split; [reflexivity|]. split; [exact Hn|].
        intros n' e' [Heq|Hin]; [inversion Heq; subst; exact E|].
        eapply Hb, Hin.
      * intros (before & name & after & H & Hn & Hb).
        destruct before as [|[n1 e1] before]; simpl in H.
        -- injection H as -> -> ->. contradiction.
        -- injection H as <- <- ->. exists before, name, after.
           split; [reflexivity|]. split; [exact Hn|].
           intros n' e' Hin. apply (Hb n' e'). right. exact Hin.
Qed.

(** ** Remote reads: batches and what reaches the extractor *)

Lemma Promise_all_Fulfilled_inv {A : Type} (ps : list (promise A)) :
  forall vs, Promise_all ps = Fulfilled vs -> ps = map Fulfilled vs.
Proof.
  induction ps as [|p rest IH]; simpl; intros vs H.
  - inversion H. reflexivity.
  - destruct p as [a|e]; [|discriminate].
    destruct (Promise_all rest) as [l|e]; [|discriminate].
    inversion H; subst. simpl. rewrite (IH l eq_refl). reflexivity.
Qed.

Lemma mapi_fulfilled_nth {A B : Type} (f : nat -> A -> promise B)
      (l : list A) (vs : list B) :
  mapi f 0 l = map Fulfilled vs ->
  List.length vs = List.length l
  /\ forall k a, nth_error l k = Some a ->
       exists b, nth_error vs k = Some b /\ f k a = Fulfilled b.
Proof.
  intros H. split.
  - rewrite <- (length_mapi f l 0), H. symmetry. apply length_map.
  - intros k a Hk.
    assert (E : nth_error (mapi f 0 l) k = Some (f k a)).
    { rewrite nth_error_mapi, Hk. reflexivity. }
    rewrite H, nth_error_map in E.
    destruct (nth_error vs k) as [b|]; [|discriminate].
    simpl in E. inversion E. exists b. split; reflexivity.
Qed.

Lemma mapi_rejected_nth {A B : Type} (f : nat -> A -> promise B)
      (l : list A) (e : Error) :
  In (Rejected e) (mapi f 0 l) ->
  exists k a, nth_error l k = Some a /\ f k a = Rejected e.
Proof.
  intros H. apply In_nth_error in H. destruct H as [k Hk].
  rewrite nth_error_mapi in Hk.
  destruct (nth_error l k) as [a|] eqn:E; [|discriminate].
  simpl in Hk. injection Hk as Hk. exists k, a. split; [exact E|exact Hk].
Qed.

(** X2.  The file listing is all or nothing.  When every request of the
    batch is answered, the stage resolves with the files of all projects,
    project after project, and logs their number; when one is rejected,
    the stage is rejected with the reason of a rejected request and logs
    nothing. *)
Theorem file_listing_is_all_or_nothing
    (net : Network) (ps : list Project) (l : list LogLine) :
  match getFigmaFilesForProjects net ps l with
  | (Fulfilled files, l') =>
      exists fss,
        List.length fss = List.length ps
        /\ (forall k project, nth_error ps k = Some project ->
              exists fs, nth_error fss k = Some fs
                         /\ get_files net k (project_id project) = Fulfilled fs)
        /\ files = List.concat fss
        /\ l' = (l ++ [LogFetchedFiles (List.length files)])%list
  | (Rejected e, l') =>
      l' = l
      /\ exists k project,
           nth_error ps k = Some project
           /\ get_files net k (project_id project) = Rejected e
  end.
Proof.
  unfold getFigmaFilesForProjects, bind, await, log, ret.
  destruct (Promise_all _) as [fss|e] eqn:E.
  - apply Promise_all_Fulfilled_inv in E.
    destruct (mapi_fulfilled_nth _ _ _ E) as [Hlen Hnth].
    exists fss. repeat split; try assumption; reflexivity.
  - split; [reflexivity|]. apply Promise_all_rejected in E.
    apply (mapi_rejected_nth (fun i project => get_files net i (project_id project))).
    exact E.
Qed.

Lemma getFigmaVersionForFiles_fulfilled (net : Network) (rs : list File.t)
      (l l' : list LogLine) (vfs : list VersionedFile) :
  getFigmaVersionForFiles net rs l = (Fulfilled vfs, l') ->
  map vf_file vfs = rs
  /\ forall k vf, nth_error vfs k = Some vf ->
       get_versions net k (File.key (vf_file vf)) = Fulfilled (vf_versions vf).
Proof.
  unfold getFigmaVersionForFiles, bind, await, log, ret.
  destruct (Promise_all _) as [vs|e] eqn:E; [|discriminate].
  intros H. inversion H; subst. clear H.
  apply Promise_all_Fulfilled_inv in E.
  destruct (mapi_fulfilled_nth _ _ _ E) as [Hlen Hnth].
  assert (Hfile : forall k f, nth_error rs k = Some f ->
            exists vf, nth_error vfs k = Some vf /\ vf_file vf = f
              /\ get_versions net k (File.key f) = Fulfilled (vf_versions vf)).
  { intros k f Hk. destruct (Hnth k f Hk) as [vf [Hvf Hf]].
    exists vf. split; [exact Hvf|]. unfold then_ in Hf.
    destruct (get_versions net k (File.key f)) as [vs|e]; [|discriminate].
    inversion Hf. split; reflexivity. }
  split.
  - apply nth_error_ext. intros k. rewrite nth_error_map.
    destruct (nth_error rs k) as [f|] eqn:Ek.
    + destruct (Hfile k f Ek) as [vf (Hvf & Hf & _)]. rewrite Hvf. simpl.
      rewrite Hf. reflexivity.
    + apply nth_error_None in Ek. rewrite <- Hlen in Ek.
      apply nth_error_None in Ek. rewrite Ek. reflexivity.
  - intros k vf Hk.
    destruct (nth_error rs k) as [f|] eqn:Ek.
    + destruct (Hfile k f Ek) as [vf' (Hvf & Hf & Hg)].
      rewrite Hk in Hvf. inversion Hvf; subst vf'. rewrite Hf. exact Hg.
    + apply nth_error_None in Ek. rewrite <- Hlen in Ek.
      apply nth_error_None in Ek. rewrite Ek in Hk. discriminate.
Qed.

(** X3.  What reaches the extractor in a cycle whose reads succeed: one
    entry for every listed file modified strictly after the marker, in
    listing order and for no other file, each with the versions answered
    to the request at its position. *)
Theorem cycle_entries_are_the_recent_files
    (CONF : Conf) (net : Network) (M : Z)
    (vfs : list VersionedFile) (l : list LogLine) :
  fetched CONF net M [] = (Fulfilled vfs, l) ->
  (forall vf, In vf vfs -> M < File.last_modified (vf_file vf))
  /\ (forall k vf, nth_error vfs k = Some vf ->
        get_versions net k (File.key (vf_file vf)) = Fulfilled (vf_versions vf))
  /\ exists ps files l1 l2,
       getFigmaProjectsForTeam net (figma_teamID CONF) [] = (Fulfilled ps, l1)
       /\ getFigmaFilesForProjects net ps l1 = (Fulfilled files, l2)
       /\ map vf_file vfs = filter (newer M) files.
Proof.
  unfold fetched, bind.
  destruct (getFigmaProjectsForTeam net (figma_teamID CONF) [])
    as [[ps|e1] l1] eqn:E1; [|discriminate].
  destruct (getFigmaFilesForProjects net ps l1) as [[fs|e2] l2] eqn:E2;
    [|discriminate].
  destruct (filterFigmaFilesToEditedAfter M fs l2) as [[rs|e3] l3] eqn:E3;
    [|discriminate].
  intros H. apply getFigmaVersionForFiles_fulfilled in H. destruct H as [Hf Hv].
  assert (Hrs : rs = filter (newer M) fs).
  { unfold filterFigmaFilesToEditedAfter, bind, log, ret in E3.
    destruct (0 <? _)%nat; inversion E3; reflexivity. }
  split; [|split; [exact Hv|]].
  - intros vf Hin. apply (in_map vf_file) in Hin. rewrite Hf, Hrs in Hin.
    apply filter_In in Hin. destruct Hin as [_ Hn].
    unfold newer, isAfter in Hn. apply Z.ltb_lt. exact Hn.
  - exists ps, fs, l1, l2. split; [reflexivity|]. split; [exact E2|].
    rewrite Hf. exact Hrs.
Qed.

Lemma cycle_entries_are_the_recent_files_witness :
  fetched sampleConf (respondingNet 200) 1000 []
  = (Fulfilled [sampleVersionedFile],
     [LogFetchedProjects 1; LogFetchedFiles 1; LogFilesChanged 1;
      LogFetchedVersions 1])
  /\ forall vf, In vf [sampleVersionedFile] ->
                1000 < File.last_modified (vf_file vf).
Proof.
  assert (F : fetched sampleConf (respondingNet 200) 1000 []
              = (Fulfilled [sampleVersionedFile],
                 [LogFetchedProjects 1; LogFetchedFiles 1; LogFilesChanged 1;
                  LogFetchedVersions 1])) by (vm_compute; reflexivity).
  split; [exact F|].
  exact (proj1 (cycle_entries_are_the_recent_files
                  sampleConf (respondingNet 200) 1000 _ _ F)).
Defined.

(** ** Extractor: who is recorded, and what becomes of them *)

Lemma discover_In (l : list string) :
  forall seen x, In x (discover seen l) <-> In x l /\ ~ In x seen.
Proof.
  induction l as [|y rest IH]; intros seen x; simpl.
  - tauto.
  - destruct (mem y seen) eqn:E.
    + apply mem_true_iff in E. rewrite IH. split.
      * intros [H1 H2]. tauto.
      * intros [[H1|H1] H2]; [subst; contradiction|tauto].
    + apply mem_false_iff in E. simpl. rewrite IH. simpl. split.
      * intros [H|[H1 H2]]; [subst; tauto|tauto].
      * intros [[H1|H1] H2]; [tauto|].
        destruct (string_dec y x); [tauto|tauto].
Qed.

Lemma selectedFrom_In (M : Z) (V : list Version) :
  forall n v,
    In v (selectedFrom M n V)
    <-> exists k, nth_error V k = Some v
                  /\ ((n + k = 0)%nat \/ M < created_at v).
Proof.
  induction V as [|w rest IH]; intros n v; simpl.
  - split; [intros []|]. intros [k [H _]]. destruct k; discriminate.
  - assert (C : (n =? 0)%nat || isAfter (created_at w) M = true
                <-> (n + 0 = 0)%nat \/ M < created_at w).
    { rewrite orb_true_iff, Nat.eqb_eq, Nat.add_0_r.
      unfold isAfter. rewrite Z.ltb_lt. tauto. }
    split.
    + intros H.
      destruct ((n =? 0)%nat || isAfter (created_at w) M) eqn:E.
      * destruct H as [H|H].
        -- subst w. exists 0%nat. split; [reflexivity|apply C; reflexivity].
        -- apply IH in H. destruct H as [k [Hk Hc]]. exists (S k).
           split; [exact Hk|]. destruct Hc as [Hc|Hc]; [lia|tauto].
      * apply IH in H. destruct H as [k [Hk Hc]]. exists (S k).
        split; [exact Hk|]. destruct Hc as [Hc|Hc]; [lia|tauto].
    + intros [k [Hk Hc]]. destruct k as [|k]; simpl in Hk.
      * inversion Hk; subst w. apply C in Hc. rewrite Hc. left. reflexivity.
      * assert (H : In v (selectedFrom M (S n) rest)).
        { apply IH. exists k. split; [exact Hk|].
          destruct Hc as [Hc|Hc]; [lia|tauto]. }
        destruct ((n =? 0)%nat || isAfter (created_at w) M);
          [right; exact H|exact H].
Qed.

(** X4.  A user id is a key of the extractor's map exactly when it is the
    id of the author of the version at index 0 or of a version created
    strictly after the marker: nobody else is recorded, and none of these
    is left out. *)
Theorem recorded_ids_are_first_or_recent_authors
    (M : Z) (V : list Version) (i : string) :
  In i (keys (editorsMapOf M V))
  <-> exists k v, nth_error V k = Some v /\ id (user v) = i
                  /\ (k = 0%nat \/ M < created_at v).
Proof.
  rewrite editorsMapOf_selected, keys_fold. simpl.
  rewrite discover_In, in_map_iff. unfold selected, authorId. split.
  - intros [[v [Hi Hv]] _]. apply selectedFrom_In in Hv.
    destruct Hv as [k [Hk Hc]]. exists k, v. simpl in Hc. tauto.
  - intros [k [v (Hk & Hi & Hc)]]. split; [|intros []].
    exists v. split; [exact Hi|]. apply selectedFrom_In. exists k.
    simpl. tauto.
Qed.

Lemma selectedFrom_none (M : Z) (V : list Version) :
  Forall (fun w => created_at w <= M) V ->
  forall n, selectedFrom M (S n) V = [].
Proof.
  induction 1 as [|w rest Hw _ IH]; intros n; simpl.
  - reflexivity.
  - unfold isAfter. apply Z.ltb_ge in Hw. rewrite Hw. simpl. apply IH.
Qed.

(** X5.  When no version after the first was created after the marker, the
    map holds the author of the first version alone, under the handle of
    that version. *)
Theorem only_first_author_when_nothing_is_recent
    (M : Z) (v : Version) (V : list Version) :
  Forall (fun w => created_at w <= M) V ->
  editorsMapOf M (v :: V) = [(id (user v), handle (user v))].
Proof.
  intros H. rewrite editorsMapOf_selected. unfold selected. simpl.
  rewrite (selectedFrom_none M V H). reflexivity.
Qed.

Lemma only_first_author_when_nothing_is_recent_witness :
  Forall (fun w => created_at w <= 2000) (tl sampleVersions)
  /\ editorsMapOf 2000 sampleVersions = [("A", "Alice")].
Proof.
  assert (H : Forall (fun w => created_at w <= 2000) (tl sampleVersions)).
  { repeat constructor; simpl; lia. }
  split; [exact H|].
  exact (only_first_author_when_nothing_is_recent 2000 _ _ H).
Defined.

Lemma fold_lastHandle_In (i : string) (l : list Version) :
  forall o h,
    fold_left (fun o v => if String.eqb (id (user v)) i
                          then Some (handle (user v)) else o) l o = Some h ->
    o = Some h
    \/ exists v, In v l /\ id (user v) = i /\ handle (user v) = h.
Proof.
  induction l as [|w rest IH]; intros o h; simpl.
  - tauto.
  - intros H. apply IH in H. destruct H as [H|[v (Hv & Hi & Hh)]].
    + destruct (String.eqb (id (user w)) i) eqn:E.
      * right. exists w. apply String.eqb_eq in E. inversion H. tauto.
      * left. exact H.
    + right. exists v. tauto.
Qed.

Lemma length_Map_set (m : list (string * string)) (k v : string) :
  (List.length (Map_set m k v) <= S (List.length m))%nat.
Proof.
  induction m as [|[k' v'] rest IH]; simpl; [lia|].
  destruct (String.eqb k' k); simpl; lia.
Qed.

Lemma length_fold_recordAuthor (l : list Version) :
  forall acc,
    (List.length (fold_left recordAuthor l acc)
     <= List.length acc + List.length l)%nat.
Proof.
  induction l as [|w rest IH]; intros acc; simpl; [lia|].
  specialize (IH (recordAuthor acc w)).
  pose proof (length_Map_set acc (id (user w)) (handle (user w))) as H.
  unfold recordAuthor in *. lia.
Qed.

Lemma length_selectedFrom (M : Z) (V : list Version) :
  forall n, (List.length (selectedFrom M n V) <= List.length V)%nat.
Proof.
  induction V as [|w rest IH]; intros n; simpl; [lia|].
  specialize (IH (S n)).
  destruct ((n =? 0)%nat || isAfter (created_at w) M); simpl; lia.
Qed.

Lemma resolved_count (CONF : Conf) (m : list (string * string)) :
  (List.length (resolved CONF m)
   + List.length (filter isNotFound (map (resolveLine CONF) m))
   = List.length m)%nat.
Proof.
  induction m as [|[k h] rest IH]; simpl; [reflexivity|].
  unfold resolveLine at 1. simpl.
  destruct (getEmailFromHandle CONF h); simpl; lia.
Qed.

(** X6.  The editors of an entry.  Each has as name the handle of a
    version that the extractor recorded (the first, or one created after
    the marker) and as email what the resolver answers for that name;
    every key of the map gives either an editor or a not-found line, so
    the two add up to the number of keys; and there are never more editors
    than versions. *)
Theorem editors_are_resolved_recorded_authors
    (CONF : Conf) (M : Z) (vf : VersionedFile) (l : list LogLine) :
  exists entry lines,
    addEditors CONF M vf l
    = (Fulfilled entry, (l ++ LogEntry (File.name (vf_file vf)) :: lines)%list)
    /\ (forall ed, In ed (editors entry) ->
          getEmailFromHandle CONF (Editor.name ed) = Some (Editor.email ed)
          /\ exists k v, nth_error (vf_versions vf) k = Some v
                         /\ handle (user v) = Editor.name ed
                         /\ (k = 0%nat \/ M < created_at v))
    /\ (List.length (editors entry) + List.length (filter isNotFound lines)
        = List.length (keys (editorsMapOf M (vf_versions vf))))%nat
    /\ (List.length (editors entry) <= List.length (vf_versions vf))%nat.
Proof.
  rewrite addEditors_spec.
  exists (entryOf CONF M vf),
         (map (resolveLine CONF) (editorsMapOf M (vf_versions vf))).
  split; [reflexivity|]. unfold entryOf. simpl editors.
  set (m := editorsMapOf M (vf_versions vf)).
  assert (N : NoDup (keys m)).
  { unfold m. rewrite editorsMapOf_selected. apply NoDup_keys_fold. constructor. }
  split; [|split].
  - intros ed Hed. apply resolved_names in Hed. destruct Hed as [Hr [i Hi]].
    split; [exact Hr|].
    pose proof (Map_get_In m i (Editor.name ed) N Hi) as Hg.
    unfold m in Hg. rewrite editorsMapOf_selected, Map_get_fold in Hg.
    apply fold_lastHandle_In in Hg. simpl in Hg.
    destruct Hg as [Hg|[v (Hv & _ & Hh)]]; [discriminate|].
    apply selectedFrom_In in Hv. destruct Hv as [k [Hk Hc]].
    exists k, v. simpl in Hc. tauto.
  - unfold keys. rewrite length_map. apply resolved_count.
  - pose proof (resolved_count CONF m) as Hc.
    assert (Hm : (List.length m <= List.length (vf_versions vf))%nat).
    { unfold m. rewrite editorsMapOf_selected.
      pose proof (length_fold_recordAuthor (selected M (vf_versions vf)) []) as H1.
      pose proof (length_selectedFrom M (vf_versions vf) 0) as H2.
      unfold selected in *. simpl in H1. lia. }
    lia.
Qed.

(** ** Payloads and their dispatch *)

Lemma string_length_append (a b : string) :
  String.length (a ++ b) = (String.length a + String.length b)%nat.
Proof. induction a as [|c a IH]; simpl; [|rewrite IH]; reflexivity. Qed.

Lemma Sha1_hex_length (s : string) : String.length (Sha1.hex s) = 40%nat.
Proof.
  unfold Sha1.hex. destruct (Sha1.digest (Sha1.bytes s)) as [[[[a b] c] d] e].
  rewrite !string_length_append. reflexivity.
Qed.

(** X7.  Every payload of a cycle is the payload of one editor of one
    entry: its [email_hash] is the forty-character digest of that editor's
    email, its attachment names the file of that entry (key, URL built
    from the key, name), and the remaining fields are the constants of the
    integration.  There is one payload per editor, entry after entry, so
    an entry without editors contributes none. *)
Theorem payloads_describe_editor_and_file (entries : list Entry) :
  (forall p, In p (rangePayloads entries) ->
     exists entry ed,
       In entry entries /\ In ed (editors entry)
       /\ email_hash p = Sha1.hex (Editor.email ed)
       /\ String.length (email_hash p) = 40%nat
       /\ Attachment.source_id (attachment p) = File.key (file entry)
       /\ Attachment.html_url (attachment p)
          = ("https://www.figma.com/file/" ++ File.key (file entry))%string
       /\ Attachment.name (attachment p) = File.name (file entry)
       /\ is_future p = false /\ reason p = "EDITED"
       /\ dedupe_strategy p = "UPSERT_PENDING"
       /\ Attachment.provider (attachment p) = "figma"
       /\ Attachment.provider_name (attachment p) = "Figma"
       /\ Attachment.type (attachment p) = "DOCUMENT"
       /\ Attachment.subtype (attachment p) = "FIGMA_DOCUMENT")
  /\ List.length (rangePayloads entries)
     = list_sum (map (fun entry => List.length (editors entry)) entries)
  /\ map (fun p => Attachment.source_id (attachment p)) (rangePayloads entries)
     = flat_map (fun entry => repeat (File.key (file entry))
                                     (List.length (editors entry))) entries.
Proof.
  split; [|split].
  - intros p Hp. apply rangePayloads_In in Hp.
    destruct Hp as [entry [ed (He & Hed & ->)]]. exists entry, ed.
    split; [exact He|]. split; [exact Hed|]. split; [reflexivity|].
    split; [apply Sha1_hex_length|]. repeat split.
  - induction entries as [|entry rest IH]; simpl; [reflexivity|].
    unfold rangePayloads in *. simpl.
    rewrite length_app, length_map, IH. reflexivity.
  - induction entries as [|entry rest IH]; simpl; [reflexivity|].
    unfold rangePayloads in *. simpl. rewrite map_app, IH. f_equal.
    rewrite map_map. simpl. generalize (editors entry) as eds.
    induction eds as [|ed eds IHe]; simpl; [|rewrite IHe]; reflexivity.
Qed.

(** X8.  The dispatch step is all or nothing with respect to rejected
    requests.  It resolves only when every POST of the batch was answered,
    and then logs how many payloads it sent (none, for an empty batch);
    when a POST is rejected the step is rejected with the reason of a
    rejected POST and logs nothing. *)
Theorem dispatch_rejects_with_a_rejected_post
    (CONF : Conf) (net : Network) (payloads : list Payload) (l : list LogLine) :
  match sendRangePayloads CONF net payloads l with
  | (Fulfilled _, l') =>
      l' = (l ++ [LogSent (List.length payloads)])%list
      /\ forall k p, nth_error payloads k = Some p ->
           exists resp, post net k (range_webhookURL CONF) p = Fulfilled resp
  | (Rejected e, l') =>
      l' = l
      /\ payloads <> []
      /\ exists k p, nth_error payloads k = Some p
                     /\ post net k (range_webhookURL CONF) p = Rejected e
  end.
Proof.
  rewrite sendRangePayloads_spec.
  destruct (Promise_all _) as [rs|e] eqn:E.
  - split; [reflexivity|]. apply Promise_all_Fulfilled_inv in E.
    destruct (mapi_fulfilled_nth _ _ _ E) as [_ Hnth].
    intros k p Hk. destruct (Hnth k p Hk) as [r [_ Hr]]. exists r. exact Hr.
  - split; [reflexivity|]. apply Promise_all_rejected in E.
    apply (mapi_rejected_nth
             (fun i p => post net i (range_webhookURL CONF) p)) in E.
    split; [|exact E]. destruct E as [k [p [Hk _]]].
    intros ->. destruct k; discriminate.
Qed.

Lemma filter_newer_none (M : Z) (fs : list File.t) :
  (forall f, In f fs -> File.last_modified f <= M) -> filter (newer M) fs = [].
Proof.
  induction fs as [|f rest IH]; intros H; simpl; [reflexivity|].
  unfold newer at 1, isAfter.
  assert (Hf : File.last_modified f <= M) by (apply H; left; reflexivity).
  apply Z.ltb_ge in Hf. rewrite Hf. apply IH. intros g Hg. apply H. right.
  exact Hg.
Qed.

(** X9.  A cycle that finds no file modified after the marker asks for no
    versions and sends nothing: once the projects and their files are
    listed, the chain resolves whatever the other endpoints would answer,
    it logs that nothing changed, and on settling the marker moves to the
    start time minus one minute. *)
Theorem cycle_without_recent_files_succeeds
    (CONF : Conf) (net : Network) (M : Z)
    (ps : list Project) (l1 : list LogLine)
    (fs : list File.t) (l2 : list LogLine) :
  getFigmaProjectsForTeam net (figma_teamID CONF) [] = (Fulfilled ps, l1) ->
  getFigmaFilesForProjects net ps l1 = (Fulfilled fs, l2) ->
  (forall f, In f fs -> File.last_modified f <= M) ->
  syncChain CONF net M []
  = (Fulfilled tt,
     (l2 ++ [LogNoFilesChanged; LogFetchedVersions 0; LogSent 0])%list)
  /\ forall T now rest p,
       lastSyncedTime
         (settle CONF now
            {| syncStartTime := T; chainMarker := M; chainNet := net |} rest p)
       = T - 60000.
Proof.
  intros H1 H2 Hold.
  assert (E : syncChain CONF net M []
              = (Fulfilled tt,
                 (l2 ++ [LogNoFilesChanged; LogFetchedVersions 0; LogSent 0])%list)).
  { unfold syncChain, bind at 1. rewrite H1. unfold bind at 1. rewrite H2.
    unfold bind at 1, filterFigmaFilesToEditedAfter.
    change (fun f : File.t => isAfter (File.last_modified f) M) with (newer M).
    rewrite (filter_newer_none M fs Hold). simpl.
    unfold bind, log, ret, await. simpl.
    rewrite sendRangePayloads_spec. simpl. rewrite <- !app_assoc. reflexivity. }
  split; [exact E|]. intros T now rest p.
  rewrite (settle_fulfilled CONF now
             {| syncStartTime := T; chainMarker := M; chainNet := net |}
             rest p _ E).
  reflexivity.
Qed.

Lemma cycle_without_recent_files_succeeds_witness :
  (forall f, In f [sampleFile] -> File.last_modified f <= 5000)
  /\ get_versions deafNet 0 "k1" = Rejected resetError
  /\ syncChain sampleConf deafNet 5000 []
     = (Fulfilled tt,
        [LogFetchedProjects 1; LogFetchedFiles 1; LogNoFilesChanged;
         LogFetchedVersions 0; LogSent 0]).
Proof.
  assert (Hold : forall f, In f [sampleFile] -> File.last_modified f <= 5000).
  { intros f [<-|[]]. simpl. lia. }
  split; [exact Hold|]. split; [reflexivity|].
  exact (proj1 (cycle_without_recent_files_succeeds
                  sampleConf deafNet 5000
                  [sampleProject] [LogFetchedProjects 1]
                  [sampleFile] [LogFetchedProjects 1; LogFetchedFiles 1]
                  eq_refl eq_refl Hold)).
Defined.

(** ** Orchestrator: when the marker is written *)

(** X10.  The marker is written by nothing but the last handler of a chain
    that resolved: an event either leaves it as it is, or it is the
    settlement of a cycle in flight whose chain resolved, and the new
    marker is that cycle's start time minus one minute. *)
Theorem marker_changes_only_on_success (CONF : Conf) (p : Process) (ev : Event) :
  lastSyncedTime (step CONF p ev) = lastSyncedTime p
  \/ exists now k c out,
       ev = Settle now k
       /\ nth_error (inflight p) k = Some c
       /\ syncChain CONF (chainNet c) (chainMarker c) [] = (Fulfilled tt, out)
       /\ lastSyncedTime (step CONF p ev) = syncStartTime c - 60000.
Proof.
  destruct ev as [now net|now k]; simpl.
  - left. reflexivity.
  - destruct (nth_error (inflight p) k) as [c|] eqn:Hk; [|left; reflexivity].
    destruct (syncChain CONF (chainNet c) (chainMarker c) [])
      as [[[]|e] out] eqn:E.
    + right. exists now, k, c, out. split; [reflexivity|].
      split; [exact Hk|]. split; [exact E|].
      rewrite (settle_fulfilled CONF now c _ p out E). reflexivity.
    + left. apply (settle_rejected CONF now c _ p e). rewrite E. reflexivity.
Qed.

Lemma removeNth_In {A : Type} (l : list A) :
  forall k x, In x (removeNth k l) -> In x l.
Proof.
  induction l as [|a rest IH]; intros k x H; simpl in *.
  - destruct k; exact H.
  - destruct k as [|k]; [right; exact H|].
    destruct H as [H|H]; [left; exact H|right; eapply IH, H].
Qed.

Lemma settle_cases (CONF : Conf) (now : Z) (c : Cycle) (rest : list Cycle)
      (p : Process) :
  clock (settle CONF now c rest p) = now
  /\ inflight (settle CONF now c rest p) = rest
  /\ (lastSyncedTime (settle CONF now c rest p) = lastSyncedTime p
      \/ lastSyncedTime (settle CONF now c rest p) = syncStartTime c - 60000).
Proof.
  unfold settle, subtractMinutes.
  destruct (syncChain CONF (chainNet c) (chainMarker c) []) as [[u|e] out];
    simpl; (split; [reflexivity|]); (split; [reflexivity|]);
    [right; lia|left; reflexivity].
Qed.

Lemma step_BehindInv (CONF : Conf) (d : Z) (p : Process) (ev : Event) :
  0 <= d <= 60000 ->
  BehindInv d p -> clock p <= eventTime ev -> BehindInv d (step CONF p ev).
Proof.
  intros Hd [Hm Hf] Hc. destruct ev as [now net|now k]; simpl in *.
  - split; simpl; [lia|]. apply Forall_app. split.
    + eapply Forall_impl; [|exact Hf]. simpl. intros c H. lia.
    + constructor; [simpl; lia|constructor].
  - destruct (nth_error (inflight p) k) as [c|] eqn:Hk; [|split; assumption].
    destruct (settle_cases CONF now c (removeNth k (inflight p)) p)
      as (Ec & Ei & Em).
    assert (Hs : syncStartTime c <= clock p).
    { rewrite Forall_forall in Hf. apply Hf. eapply nth_error_In, Hk. }
    split.
    + rewrite Ec. destruct Em as [-> | ->]; lia.
    + rewrite Ec, Ei. rewrite Forall_forall in *. intros c' Hc'.
      apply removeNth_In in Hc'. specialize (Hf c' Hc'). lia.
Qed.

Lemma run_BehindInv (CONF : Conf) (d : Z) (evs : list Event) :
  0 <= d <= 60000 ->
  forall p, BehindInv d p -> clockMonotone CONF p evs ->
            BehindInv d (run CONF p evs).
Proof.
  intros Hd. induction evs as [|ev rest IH]; intros p HI Hc; simpl.
  - exact HI.
  - destruct Hc as [Hc1 Hc2]. apply IH; [|exact Hc2].
    apply step_BehindInv; assumption.
Qed.

(** X11.  The marker is never ahead of the clock.  When the configured
    history window is not negative and the wall clock never goes back,
    then after every run, with cycles overlapping or not, the marker is at
    or before the time of the last event; with a window of a minute or
    more it is at least a minute before it. *)
Theorem marker_never_ahead_of_clock (CONF : Conf) (now0 : Z) (evs : list Event) :
  0 <= initialImportHistoryMinutes (settings CONF) ->
  clockMonotone CONF (boot CONF now0) evs ->
  lastSyncedTime (run CONF (boot CONF now0) evs)
  <= clock (run CONF (boot CONF now0) evs)
  /\ (1 <= initialImportHistoryMinutes (settings CONF) ->
      lastSyncedTime (run CONF (boot CONF now0) evs)
      <= clock (run CONF (boot CONF now0) evs) - 60000).
Proof.
  intros Hh Hc. split.
  - assert (H : BehindInv 0 (run CONF (boot CONF now0) evs)).
    { apply run_BehindInv; [lia| |exact Hc].
      split; [|constructor]. unfold boot, subtractMinutes. simpl. nia. }
    destruct H as [H _]. lia.
  - intros H1.
    assert (H : BehindInv 60000 (run CONF (boot CONF now0) evs)).
    { apply run_BehindInv; [lia| |exact Hc].
      split; [|constructor]. unfold boot, subtractMinutes. simpl. nia. }
    destruct H as [H _]. exact H.
Qed.

Lemma marker_never_ahead_of_clock_witness :
  lastSyncedTime (run zeroHistoryConf (boot zeroHistoryConf 1000000)
                      (firstCycle 1000000 (respondingNet 200)))
  <= clock (run zeroHistoryConf (boot zeroHistoryConf 1000000)
                (firstCycle 1000000 (respondingNet 200))).
Proof.
  refine (proj1 (marker_never_ahead_of_clock zeroHistoryConf 1000000
                   (firstCycle 1000000 (respondingNet 200)) _ _)).
  - simpl. lia.
  - simpl. lia.
Defined.

Lemma run_markerValues (CONF : Conf) (m0 : Z) (evs : list Event) :
  forall p seen,
    In (lastSyncedTime p) (markerValues m0 seen) ->
    Forall (fun c => In (syncStartTime c) seen) (inflight p) ->
    In (lastSyncedTime (run CONF p evs))
       (markerValues m0 (seen ++ triggerTimes evs)).
Proof.
  induction evs as [|ev rest IH]; intros p seen Hm Hf; simpl.
  - rewrite app_nil_r. exact Hm.
  - destruct ev as [now net|now k]; simpl.
    + replace (seen ++ now :: triggerTimes rest)%list
        with ((seen ++ [now]) ++ triggerTimes rest)%list
        by (rewrite <- app_assoc; reflexivity).
      apply IH; simpl.
      * unfold markerValues in *. rewrite map_app.
        destruct Hm as [Hm|Hm]; [left; exact Hm|right].
        apply in_or_app. left. exact Hm.
      * apply Forall_app. split.
        -- eapply Forall_impl; [|exact Hf]. simpl. intros c H.
           apply in_or_app. left. exact H.
        -- constructor; [|constructor]. simpl. apply in_or_app. right.
           left. reflexivity.
    + destruct (nth_error (inflight p) k) as [c|] eqn:Hk;
        [|apply IH; assumption].
      destruct (settle_cases CONF now c (removeNth k (inflight p)) p)
        as (_ & Ei & Em).
      apply IH.
      * destruct Em as [-> | ->]; [exact Hm|].
        right. apply in_map_iff. exists (syncStartTime c).
        split; [reflexivity|]. rewrite Forall_forall in Hf. apply Hf.
        eapply nth_error_In, Hk.
      * rewrite Ei. rewrite Forall_forall in *. intros c' Hc'.
        apply Hf. eapply removeNth_In, Hc'.
Qed.

(** X12.  Over any run the marker is either its start-up value or one
    minute before a time at which [syncFigmaToRange] was called in that
    run; it takes no other value. *)
Theorem marker_is_initial_or_a_start_minus_one_minute
    (CONF : Conf) (now0 : Z) (evs : list Event) :
  In (lastSyncedTime (run CONF (boot CONF now0) evs))
     (now0 - initialImportHistoryMinutes (settings CONF) * 60000
      :: map (fun T => T - 60000) (triggerTimes evs)).
Proof.
  apply (run_markerValues CONF
           (now0 - initialImportHistoryMinutes (settings CONF) * 60000)
           evs (boot CONF now0) []).
  - left. reflexivity.
  - constructor.
Qed.

Lemma StronglySorted_snoc (l : list Z) (x : Z) :
  StronglySorted Z.le l -> Forall (fun y => y <= x) l ->
  StronglySorted Z.le (l ++ [x]).
Proof.
  induction 1 as [|a l Hs IH Ha]; intros Hx; simpl.
  - repeat constructor.
  - inversion Hx; subst. constructor; [apply IH; assumption|].
    apply Forall_app. split; [exact Ha|]. constructor; [assumption|constructor].
Qed.

Lemma step_FifoInv (CONF : Conf) (p : Process) (ev : Event) :
  BehindInv 60000 p -> FifoInv p ->
  clock p <= eventTime ev ->
  match ev with Trigger _ _ => True | Settle _ k => k = 0%nat end ->
  FifoInv (step CONF p ev)
  /\ lastSyncedTime p <= lastSyncedTime (step CONF p ev).
Proof.
  intros [Hb _] [Hs Hf] Hc Hk. destruct ev as [now net|now k]; simpl in *.
  - split; [|lia]. split; simpl.
    + rewrite map_app. simpl. apply StronglySorted_snoc; [exact Hs|].
      rewrite Forall_map. eapply Forall_impl; [|exact Hf]. simpl.
      intros c H. lia.
    + apply Forall_app. split.
      * eapply Forall_impl; [|exact Hf]. simpl. intros c H. lia.
      * constructor; [simpl; lia|constructor].
  - subst k. destruct (inflight p) as [|c rest] eqn:Ei; simpl.
    + split; [|lia]. split; rewrite Ei; assumption.
    + destruct (settle_cases CONF now c rest p) as (Ec & Er & Em).
      inversion Hf as [|? ? [Hc1 Hc2] Hf']; subst.
      simpl in Hs. apply StronglySorted_inv in Hs. destruct Hs as [Hs Hle].
      rewrite Forall_map in Hle.
      split; [|destruct Em as [-> | ->]; lia].
      split; rewrite Er; [exact Hs|]. rewrite Ec.
      rewrite Forall_forall in *. intros c' Hc'.
      specialize (Hf' c' Hc'). specialize (Hle c' Hc'). simpl in Hle.
      destruct Em as [-> | ->]; lia.
Qed.

Lemma markers_sorted_fifo (CONF : Conf) (evs : list Event) :
  forall p,
    BehindInv 60000 p -> FifoInv p ->
    fifo evs -> clockMonotone CONF p evs ->
    Sorted Z.le (lastSyncedTime p :: markers CONF p evs).
Proof.
  induction evs as [|ev rest IH]; intros p Hb Hf Hq Hc; simpl.
  - repeat constructor.
  - destruct Hc as [Hc1 Hc2].
    assert (Hk : match ev with Trigger _ _ => True | Settle _ k => k = 0%nat end
                 /\ fifo rest).
    { destruct ev; simpl in Hq; tauto. }
    destruct Hk as [Hk Hq'].
    destruct (step_FifoInv CONF p ev Hb Hf Hc1 Hk) as [Hf' Hle].
    constructor; [|constructor; exact Hle].
    apply IH; try assumption.
    apply step_BehindInv; [lia|exact Hb|exact Hc1].
Qed.

(** X13.  Cycles may overlap without harm to the marker as long as they
    settle in the order in which they started: with an initial history
    window of a minute or more and a wall clock that never goes back, the
    marker never decreases over such a run. *)
Theorem marker_monotone_when_cycles_settle_in_order
    (CONF : Conf) (now0 : Z) (evs : list Event) :
  1 <= initialImportHistoryMinutes (settings CONF) ->
  fifo evs ->
  clockMonotone CONF (boot CONF now0) evs ->
  StronglySorted Z.le (markerHistory CONF now0 evs).
Proof.
  intros Hh Hq Hc. apply Sorted_StronglySorted.
  - intros x y z. apply Z.le_trans.
  - apply markers_sorted_fifo; try assumption.
    + split; [|constructor]. unfold boot, subtractMinutes. simpl. nia.
    + split; simpl; constructor.
Qed.

Lemma marker_monotone_when_cycles_settle_in_order_witness :
  List.length (inflight (run sampleConf (boot sampleConf 90000000)
                             (firstn 2 overlappingFifoRun))) = 2%nat
  /\ markerHistory sampleConf 90000000 overlappingFifoRun
     = [3600000; 3600000; 3600000; 89940000; 89940000; 89940000; 91140000]
  /\ StronglySorted Z.le (markerHistory sampleConf 90000000 overlappingFifoRun).
Proof.
  split; [reflexivity|]. split; [vm_compute; reflexivity|].
  apply marker_monotone_when_cycles_settle_in_order.
  - simpl. lia.
  - simpl. tauto.
  - simpl. lia.
Defined.

(** ** The log of a cycle *)

Lemma logs_ret {A : Type} (a : A) : logsStageLines (ret a).
Proof. intros l. exists []. rewrite app_nil_r. split; [reflexivity|constructor]. Qed.

Lemma logs_await {A : Type} (pr : promise A) : logsStageLines (await pr).
Proof. intros l. exists []. rewrite app_nil_r. split; [reflexivity|constructor]. Qed.

Lemma logs_log (x : LogLine) : stageLine x = true -> logsStageLines (log x).
Proof.
  intros H l. exists [x]. split; [reflexivity|]. constructor; [exact H|constructor].
Qed.

Lemma logs_bind {A B : Type} (m : Chain A) (k : A -> Chain B) :
  logsStageLines m -> (forall a, logsStageLines (k a)) ->
  logsStageLines (bind m k).
Proof.
  intros Hm Hk l. unfold bind. destruct (Hm l) as [a1 [E1 F1]].
  destruct (m l) as [[a|e] l1]; simpl in E1; subst l1.
  - destruct (Hk a (l ++ a1)%list) as [a2 [E2 F2]].
    exists (a1 ++ a2)%list. rewrite E2, app_assoc.
    split; [reflexivity|]. apply Forall_app. split; assumption.
  - exists a1. split; [reflexivity|exact F1].
Qed.

Lemma logs_mapM {A B : Type} (f : A -> Chain B) (l : list A) :
  (forall a, logsStageLines (f a)) -> logsStageLines (mapM f l).
Proof.
  intros Hf. induction l as [|a rest IH]; simpl.
  - apply logs_ret.
  - apply logs_bind; [apply Hf|]. intros b.
    apply logs_bind; [exact IH|]. intros bs. apply logs_ret.
Qed.

Lemma logs_resolveEditors (CONF : Conf) (m : list (string * string))
      (acc : list Editor.t) :
  logsStageLines (resolveEditors CONF m acc).
Proof.
  intros l. rewrite resolveEditors_spec. eexists. split; [reflexivity|].
  rewrite Forall_map. rewrite Forall_forall. intros [k h] _.
  unfold resolveLine. simpl. destruct (getEmailFromHandle CONF h); reflexivity.
Qed.

Lemma logs_syncChain (CONF : Conf) (net : Network) (M : Z) :
  logsStageLines (syncChain CONF net M).
Proof.
  unfold syncChain.
  apply logs_bind.
  { unfold getFigmaProjectsForTeam. apply logs_bind; [apply logs_await|].
    intros ps. apply logs_bind; [apply logs_log; reflexivity|].
    intros _. apply logs_ret. }
  intros ps. apply logs_bind.
  { unfold getFigmaFilesForProjects. apply logs_bind; [apply logs_await|].
    intros fss. apply logs_bind; [apply logs_log; reflexivity|].
    intros _. apply logs_ret. }
  intros fs. apply logs_bind.
  { unfold filterFigmaFilesToEditedAfter. apply logs_bind.
    - destruct (0 <? _)%nat; apply logs_log; reflexivity.
    - intros _. apply logs_ret. }
  intros rs. apply logs_bind.
  { unfold getFigmaVersionForFiles. apply logs_bind; [apply logs_await|].
    intros vfs. apply logs_bind; [apply logs_log; reflexivity|].
    intros _. apply logs_ret. }
  intros vfs. apply logs_bind.
  { unfold addEditorsSince. apply logs_mapM. intros vf. unfold addEditors.
    apply logs_bind; [apply logs_log; reflexivity|]. intros _.
    apply logs_bind; [apply logs_resolveEditors|]. intros eds. apply logs_ret. }
  intros entries. apply logs_bind; [apply logs_ret|].
  intros payloads. unfold sendRangePayloads.
  apply logs_bind; [apply logs_await|]. intros rs'.
  apply logs_bind; [apply logs_log; reflexivity|]. intros _. apply logs_ret.
Qed.

Lemma filter_stage_lines (f : LogLine -> bool) (added : list LogLine) :
  (forall x, stageLine x = true -> f x = false) ->
  Forall (fun x => stageLine x = true) added -> filter f added = [].
Proof.
  intros Hf. induction 1 as [|x rest Hx _ IH]; simpl; [reflexivity|].
  rewrite (Hf x Hx). exact IH.
Qed.

Lemma settle_console_counts (CONF : Conf) (p : Process) (now : Z) (k : nat)
      (c : Cycle) :
  nth_error (inflight p) k = Some c ->
  exists added,
    console (step CONF p (Settle now k)) = (console p ++ added)%list
    /\ List.length (filter isVerdict added) = 1%nat
    /\ filter isSyncing added = [].
Proof.
  intros Hk. simpl. rewrite Hk. unfold settle.
  destruct (logs_syncChain CONF (chainNet c) (chainMarker c) [])
    as [out [Eo Fo]].
  assert (Hv : filter isVerdict out = []).
  { apply filter_stage_lines; [|exact Fo].
    intros x; destruct x; simpl; congruence. }
  assert (Hs : filter isSyncing out = []).
  { apply filter_stage_lines; [|exact Fo].
    intros x; destruct x; simpl; congruence. }
  destruct (syncChain CONF (chainNet c) (chainMarker c) []) as [[u|e] out'];
    simpl in Eo; subst out'; simpl.
  - exists (out ++ [LogSuccess])%list. rewrite !filter_app, Hv, Hs.
    repeat split.
  - exists (out ++ catchHandler e)%list. rewrite !filter_app, Hv, Hs.
    split; [reflexivity|]. unfold catchHandler.
    destruct (codeIs e "ECONNRESET" || codeIs e "ECONNABORTED");
      [repeat split|].
    destruct (negb (String.eqb (message e) "")); repeat split.
Qed.

Lemma length_removeNth {A : Type} (l : list A) :
  forall k a, nth_error l k = Some a ->
              S (List.length (removeNth k l)) = List.length l.
Proof.
  induction l as [|x rest IH]; intros k a H.
  - destruct k; discriminate.
  - destruct k as [|k]; simpl in *; [reflexivity|].
    rewrite (IH k a H). reflexivity.
Qed.

Lemma run_counts (CONF : Conf) (evs : list Event) :
  forall p,
    List.length (filter isSyncing (console (run CONF p evs)))
    = (List.length (filter isSyncing (console p))
       + List.length (triggerTimes evs))%nat
    /\ (List.length (filter isVerdict (console (run CONF p evs)))
        + List.length (inflight (run CONF p evs))
        = List.length (filter isVerdict (console p))
          + List.length (inflight p)
          + List.length (triggerTimes evs))%nat.
Proof.
  induction evs as [|ev rest IH]; intros p; simpl.
  - split; lia.
  - destruct (IH (step CONF p ev)) as [IH1 IH2]. rewrite IH1, IH2. clear IH1 IH2.
    destruct ev as [now net|now k].
    + simpl. rewrite !filter_app, !length_app. simpl. split; lia.
    + destruct (nth_error (inflight p) k) as [c|] eqn:Hk.
      * destruct (settle_console_counts CONF p now k c Hk)
          as [added (E & Hv & Hs)].
        assert (Hi : inflight (step CONF p (Settle now k))
                     = removeNth k (inflight p)).
        { simpl. rewrite Hk.
          apply (settle_cases CONF now c (removeNth k (inflight p)) p). }
        rewrite E, Hi, !filter_app, !length_app, Hs, Hv.
        pose proof (length_removeNth (inflight p) k c Hk). simpl. split; lia.
      * simpl. rewrite Hk. split; lia.
Qed.

(** X15.  Over any run the console holds one [Syncing] line per call of
    [syncFigmaToRange], and every cycle started is either still in flight
    or has written exactly one verdict: verdicts and cycles in flight add
    up to the number of calls. *)
Theorem every_started_cycle_gets_one_verdict
    (CONF : Conf) (now0 : Z) (evs : list Event) :
  List.length (filter isSyncing (console (run CONF (boot CONF now0) evs)))
  = List.length (triggerTimes evs)
  /\ (List.length (filter isVerdict (console (run CONF (boot CONF now0) evs)))
      + List.length (inflight (run CONF (boot CONF now0) evs))
      = List.length (triggerTimes evs))%nat.
Proof.
  destruct (run_counts CONF evs (boot CONF now0)) as [H1 H2].
  simpl in H1, H2. split; [exact H1|exact H2].
Qed.


Lemma fetched_no_resolved_lines (CONF : Conf) (net : Network) (M : Z)
      (vfs : list VersionedFile) (l : list LogLine) :
  fetched CONF net M [] = (Fulfilled vfs, l) -> filter isResolved l = [].
Proof.
  unfold fetched, bind, getFigmaProjectsForTeam, getFigmaFilesForProjects,
    filterFigmaFilesToEditedAfter, getFigmaVersionForFiles, bind, await, log, ret.
  destruct (get_projects net (figma_teamID CONF)) as [ps|e]; [|discriminate].
  destruct (Promise_all _) as [fss|e]; [|discriminate].
  destruct (0 <? _)%nat;
    (destruct (Promise_all _) as [vs|e]; [|discriminate]);
    intros H; inversion H; reflexivity.
Qed.

Lemma entryLog_resolved_count (CONF : Conf) (M : Z) (vf : VersionedFile) :
  List.length (filter isResolved (entryLog CONF M vf))
  = List.length (editors (entryOf CONF M vf)).
Proof.
  unfold entryLog, entryOf. simpl.
  generalize (editorsMapOf M (vf_versions vf)) as m.
  induction m as [|[k h] rest IH]; simpl; [reflexivity|].
  unfold resolveLine at 1. simpl.
  destruct (getEmailFromHandle CONF h); simpl; rewrite IH; reflexivity.
Qed.

(** X16.  The log of a cycle that succeeds ends with the number of
    payloads sent, and that number is the number of editors reported as
    resolved in the same log: one payload was sent for every resolved
    line, and none for a not-found line. *)
Theorem sent_count_is_number_of_resolved_lines
    (CONF : Conf) (net : Network) (M : Z) (out : list LogLine) :
  syncChain CONF net M [] = (Fulfilled tt, out) ->
  last out LogStarted = LogSent (List.length (filter isResolved out)).
Proof.
  rewrite syncChain_fetched.
  destruct (fetched CONF net M []) as [[vfs|e] l1] eqn:F; [|discriminate].
  rewrite sendRangePayloads_spec.
  destruct (Promise_all _) as [rs|e]; [|discriminate].
  intros H. inversion H; subst out. clear H. rewrite last_last. f_equal.
  rewrite !filter_app, (fetched_no_resolved_lines CONF net M vfs l1 F).
  simpl. rewrite app_nil_r.
  unfold rangePayloads. clear F.
  induction vfs as [|vf rest IH]; simpl; [reflexivity|].
  rewrite filter_app, !length_app, length_map, IH.
  pose proof (entryLog_resolved_count CONF M vf) as Hc.
  unfold entryLog, entryOf in Hc. simpl in Hc. rewrite Hc. reflexivity.
Qed.

Lemma sent_count_is_number_of_resolved_lines_witness :
  snd (syncChain bobOnlyConf (respondingNet 200) 1000 [])
  = [LogFetchedProjects 1; LogFetchedFiles 1; LogFilesChanged 1;
     LogFetchedVersions 1; LogEntry "Landing page"; LogNotFound "Alice";
     LogResolved "Bob" "bob@example.com"; LogSent 1]
  /\ last (snd (syncChain bobOnlyConf (respondingNet 200) 1000 [])) LogStarted
     = LogSent
         (List.length
            (filter isResolved
                    (snd (syncChain bobOnlyConf (respondingNet 200) 1000 [])))).
Proof.
  split; [vm_compute; reflexivity|].
  apply (sent_count_is_number_of_resolved_lines
           bobOnlyConf (respondingNet 200) 1000).
  vm_compute. reflexivity.
Defined.
